(** * owned_pointer: a shared handle that can hand out one std::unique_ptr

    Shallow embedding of [src/owned_pointer.hpp] (namespace [pobu]).

    The C++ free store is an explicit [heap]: the [control_block] tuples
    managed by [std::shared_ptr], with their strong reference counts, and the
    resources allocated by [new].  A [std::shared_ptr<control_block>] is the
    identity of the block it shares (or nothing), a raw pointer and a
    [std::unique_ptr] are an address, [nullptr] is address 0.  Every member
    function takes the heap and returns the heap it leaves behind.

    Left out: the value stored in a resource, the offsets a cast between a
    base and a derived class adds to a pointer (an address here is the address
    of the whole resource; where a handle attaches to an older block, the
    address it reports is the one that block has kept, and nothing below
    says that this is the pointer the constructor was given), and threads
    (the flags are not synchronised in the source either). *)

From Stdlib Require Import NArith ZArith Lia List Bool.
From stdpp Require Import base option numbers list gmap.

Local Open Scope N_scope.

(** ** Data model *)

Abbreviation address := N (only parsing).
Definition nullptr : address := 0.

(** [detail::control_block = std::tuple<void*, bool, bool>], with the
    indices [_ptr = 0], [_acquired = 1], [_deleted = 2] as projections. *)
Record control_block := mk_control_block {
  _ptr : address;
  _acquired : bool;
  _deleted : bool
}.

(** The cell std::shared_ptr manages: the tuple and its strong count. *)
Record shared_cell := mk_cell {
  tuple : control_block;
  use_count : nat
}.

(** [std::weak_ptr<control_block>] and [std::shared_ptr<control_block>]:
    empty, or the identity of a block. *)
Abbreviation weak_ptr := (option N) (only parsing).
Abbreviation shared_ptr := (option N) (only parsing).

(** What [new] produced at an address: a plain [T], or a
    [detail::destruction_notify_object<T>], which derives from
    [detail::shared_secret] and so carries [weak_control_block]. *)
Inductive object :=
| plain_object
| destruction_notify_object (weak_control_block : weak_ptr).

(** The type traits of the element type [T] the templates dispatch on.  A
    type with a virtual destructor is polymorphic. *)
Inductive element_type :=
| non_polymorphic
| polymorphic_only
| virtual_destructor.

Definition is_polymorphic (T : element_type) : bool :=
  match T with non_polymorphic => false | _ => true end.

Definition has_virtual_destructor (T : element_type) : bool :=
  match T with virtual_destructor => true | _ => false end.

(** The free store.  [next_block] and [next_object] are the allocator: [new]
    never hands out an identity twice, which is what makes an expired
    [weak_ptr] stay expired.  For resources this is the identity of the
    resource: [operator new] may hand the address of a freed resource out
    again, so an address below names the resource that was allocated there,
    and nothing is concluded from comparing the address of a new resource
    with that of a freed one.  [delete_events] is a ghost trace of the calls
    of [shared_secret::delete_event], by resource address, latest first. *)
Record heap := mk_heap {
  blocks : gmap N shared_cell;
  objects : gmap N object;
  next_block : N;
  next_object : N;
  delete_events : list address
}.

Definition empty_heap : heap :=
  {| blocks := ∅; objects := ∅; next_block := 0; next_object := 1;
     delete_events := [] |}.

Inductive exception :=
| unique_ptr_already_acquired
| ptr_is_already_deleted.

Inductive result (A : Type) :=
| returns (a : A)
| throws (e : exception).
Arguments returns {A} a.
Arguments throws {A} e.

(** ** Heap primitives *)

Definition with_blocks (f : gmap N shared_cell → gmap N shared_cell) (s : heap) : heap :=
  {| blocks := f (blocks s); objects := objects s;
     next_block := next_block s; next_object := next_object s;
     delete_events := delete_events s |}.

Definition with_objects (f : gmap N object → gmap N object) (s : heap) : heap :=
  {| blocks := blocks s; objects := f (objects s);
     next_block := next_block s; next_object := next_object s;
     delete_events := delete_events s |}.

Definition set_tuple (f : control_block → control_block) (c : shared_cell) : shared_cell :=
  {| tuple := f (tuple c); use_count := use_count c |}.

Definition set_use_count (f : nat → nat) (c : shared_cell) : shared_cell :=
  {| tuple := tuple c; use_count := f (use_count c) |}.

Definition set_acquired (b : bool) (cb : control_block) : control_block :=
  {| _ptr := _ptr cb; _acquired := b; _deleted := _deleted cb |}.

Definition set_deleted (b : bool) (cb : control_block) : control_block :=
  {| _ptr := _ptr cb; _acquired := _acquired cb; _deleted := b |}.

(** [new detail::control_block(p, {}, {})] handed to a fresh shared_ptr. *)
Definition new_control_block (p : address) : control_block :=
  {| _ptr := p; _acquired := false; _deleted := false |}.

Definition alloc_block (p : address) (s : heap) : N * heap :=
  (next_block s,
   {| blocks := <[next_block s := mk_cell (new_control_block p) 1]> (blocks s);
      objects := objects s;
      next_block := N.succ (next_block s); next_object := next_object s;
      delete_events := delete_events s |}).

Definition alloc_object (o : object) (s : heap) : address * heap :=
  (next_object s,
   {| blocks := blocks s;
      objects := <[next_object s := o]> (objects s);
      next_block := next_block s; next_object := N.succ (next_object s);
      delete_events := delete_events s |}).

(** [base::operator*()]: the tuple behind a shared_ptr.  A shared_ptr keeps
    its block alive, so the lookup of a held block succeeds; a handle on a
    block that is gone, which C++ rules out, reads as an empty one. *)
Definition deref (h : shared_ptr) (s : heap) : option control_block :=
  c ← h; cell ← blocks s !! c; Some (tuple cell).

(** A weak_ptr can be locked while the strong count is positive. *)
Definition lockable (w : weak_ptr) (s : heap) : shared_ptr :=
  c ← w; cell ← blocks s !! c;
  if decide (0 < use_count cell)%nat then Some c else None.

(** [weak_ptr::lock()]: a new shared_ptr on the block, or an empty one. *)
Definition lock (w : weak_ptr) (s : heap) : shared_ptr * heap :=
  match lockable w s with
  | Some c => (Some c, with_blocks (alter (set_use_count S) c) s)
  | None => (None, s)
  end.

(** [std::shared_ptr] copy construction from [h]. *)
Definition copy (h : shared_ptr) (s : heap) : shared_ptr * heap :=
  match h with
  | Some c => (Some c, with_blocks (alter (set_use_count S) c) s)
  | None => (None, s)
  end.

(** ** namespace detail *)

(** [shared_secret::delete_event] (line 75), called on the secret of the
    object at [this]:
    [if(auto p = weak_control_block.lock()) std::get<_deleted>( *p) = true;]
    The temporary [p] raises the strong count by one and gives it back at the
    end of the statement; the count it leaves is the one it found. *)
Definition delete_event (this : address) (s : heap) : heap :=
  match objects s !! this with
  | Some (destruction_notify_object weak_control_block) =>
      let s1 :=
        {| blocks := blocks s; objects := objects s;
           next_block := next_block s; next_object := next_object s;
           delete_events := this :: delete_events s |} in
      match lockable weak_control_block s1 with
      | Some p => with_blocks (alter (set_tuple (set_deleted true)) p) s1
      | None => s1
      end
  | _ => s
  end.

(** The delete-expression [delete p], as in the deleter below and in
    [std::default_delete] of a [std::unique_ptr]: the destructor of the
    object runs, [~destruction_notify_object() { delete_event(); }] (line 82)
    for an object that has one, and the storage is freed.  [delete nullptr]
    does nothing.  Deleting an address that holds no object is undefined in
    C++; here it changes nothing. *)
Definition delete_object (p : address) (s : heap) : heap :=
  match objects s !! p with
  | Some o =>
      let s1 := match o with
                | destruction_notify_object _ => delete_event p s
                | plain_object => s
                end in
      with_objects (delete p) s1
  | None => s
  end.

(** [detail::deleter<T>::operator()] (lines 56-66), without
    OWNED_BY_UNIQUE_ASSERT_DTOR: the block is put in a unique_ptr [u], the
    resource is deleted when the block is not acquired, and [u] frees the
    block on the way out. *)
Definition deleter (cb : N) (s : heap) : heap :=
  match blocks s !! cb with
  | Some cell =>
      let u := tuple cell in
      let s1 := if negb (_acquired u) then delete_object (_ptr u) s else s in
      with_blocks (delete cb) s1
  | None => s
  end.

(** [~shared_ptr]: the strong count drops by one, and the handle that
    takes it to zero runs the deleter. *)
Definition release (h : shared_ptr) (s : heap) : heap :=
  match h with
  | None => s
  | Some c =>
      match blocks s !! c with
      | Some cell =>
          let s1 := with_blocks (alter (set_use_count pred) c) s in
          if decide (use_count cell ≤ 1)%nat then deleter c s1 else s1
      | None => s
      end
  end.

(** [detail::unique_ptr_link<T>] (lines 85-99): the raw pointer read off a
    [const std::unique_ptr<T>&], in the member [_Tp* const _ptr]. *)
Record unique_ptr_link := mk_link { link_ptr : address }.

(** The special member functions the class declares: the copy constructor
    (line 88), the move assignment (line 89) and the copy assignment
    (line 90) are deleted, the move constructor (line 98) is defaulted. *)
Inductive special_member :=
| copy_construction
| move_construction
| copy_assigning
| move_assigning.

Definition unique_ptr_link_has (m : special_member) : bool :=
  match m with
  | copy_construction => false
  | move_assigning => false
  | copy_assigning => false
  | move_construction => true
  end.

(** [unique_ptr_link(unique_ptr_link&&) = default] (line 98): the member
    [_ptr] is const, so the defaulted move constructor copies it.  Returns
    the new token and what is left of the one moved from. *)
Definition unique_ptr_link_move (p : unique_ptr_link)
    : unique_ptr_link * unique_ptr_link :=
  ({| link_ptr := link_ptr p |}, p).

(** [link(u)] (lines 316-326); [u] is passed by const reference and only
    [u.get()] is read. *)
Definition link (u : address) : unique_ptr_link := {| link_ptr := u |}.

(** ** class owned_pointer<T>

    An [owned_pointer] is its private base, the shared_ptr [this]. *)

(** [get_pointer] (lines 246-252). *)
Definition get_pointer (this : shared_ptr) (s : heap) : address :=
  match deref this s with
  | Some cb => _ptr cb
  | None => nullptr
  end.

(** [acquired] (lines 213-216), noexcept. *)
Definition acquired (this : shared_ptr) (s : heap) : bool :=
  match deref this s with
  | Some cb => _acquired cb
  | None => false
  end.

(** [expired] (lines 218-221), noexcept. *)
Definition expired (this : shared_ptr) (s : heap) : bool :=
  match deref this s with
  | Some cb => _deleted cb
  | None => false
  end.

(** [explicit operator bool] (lines 228-231), noexcept. *)
Definition operator_bool (this : shared_ptr) (s : heap) : bool :=
  negb (get_pointer this s =? nullptr).

(** [throw_if_is_destroyed_and_has_virtual_dtor] (lines 268-272). *)
Definition throw_if_is_destroyed_and_has_virtual_dtor
    (this : shared_ptr) (s : heap) : result unit :=
  if expired this s then throws ptr_is_already_deleted else returns tt.

(** [get] and [operator->] (lines 181-191). *)
Definition get (this : shared_ptr) (s : heap) : result address :=
  match throw_if_is_destroyed_and_has_virtual_dtor this s with
  | throws e => throws e
  | returns _ => returns (get_pointer this s)
  end.

Definition operator_arrow (this : shared_ptr) (s : heap) : result address :=
  match throw_if_is_destroyed_and_has_virtual_dtor this s with
  | throws e => throws e
  | returns _ => returns (get_pointer this s)
  end.

(** [operator*] (lines 193-197), [return *get_pointer();]: the reference to
    the object at the address, given by the address.  On a null pointer the
    source dereferences [nullptr], which C++ leaves undefined: there is no
    result, [None]. *)
Definition operator_star (this : shared_ptr) (s : heap)
    : option (result address) :=
  match throw_if_is_destroyed_and_has_virtual_dtor this s with
  | throws e => Some (throws e)
  | returns _ =>
      if get_pointer this s =? nullptr then None
      else Some (returns (get_pointer this s))
  end.

(** The assignment [std::get<detail::_acquired>(base::operator*()) = b]. *)
Definition store_acquired (this : shared_ptr) (b : bool) (s : heap) : heap :=
  match this with
  | Some c => with_blocks (alter (set_tuple (set_acquired b)) c) s
  | None => s
  end.

(** [unique_ptr] (lines 199-211): the address held by the returned
    [std::unique_ptr], or the exception, and the heap left behind. *)
Definition unique_ptr (this : shared_ptr) (s : heap) : result address * heap :=
  if negb (get_pointer this s =? nullptr) then
    if negb (acquired this s) then
      let s1 := store_acquired this true s in
      (returns (get_pointer this s1), s1)
    else (throws unique_ptr_already_acquired, s)
  else (returns nullptr, s).

(** [compare] (lines 233-243), an [std::int8_t]. *)
Definition compare (this : shared_ptr) (ptr : address) (s : heap) : Z :=
  let a := get_pointer this s in
  if a =? ptr then 0%Z else if a <? ptr then (-1)%Z else 1%Z.

Definition compare_owned (this p : shared_ptr) (s : heap) : Z :=
  compare this (get_pointer p s) s.

(** [get_secret_when_possible] (lines 274-291): for a polymorphic [T] the
    [dynamic_cast<detail::shared_secret*>(p)], which finds the secret of a
    destruction_notify_object and nothing in a null pointer or a plain
    object; the base of [this] becomes what the secret's weak_ptr locks.
    Returns the secret (by the address of its object), the base and the
    heap.  An address that holds no object is a dangling pointer, on which
    the cast is undefined; here it finds nothing. *)
Definition get_secret_when_possible (T : element_type) (p : address) (s : heap)
    : option address * shared_ptr * heap :=
  if is_polymorphic T then
    if p =? nullptr then (None, None, s)
    else
      match objects s !! p with
      | Some (destruction_notify_object weak_control_block) =>
          let '(base, s1) := lock weak_control_block s in
          (Some p, base, s1)
      | _ => (None, None, s)
      end
  else (None, None, s).

(** [set_shared_secret_when_possible] (lines 293-296):
    [if(p) p->weak_control_block = *this;] *)
Definition set_shared_secret_when_possible
    (this : shared_ptr) (p : option address) (s : heap) : heap :=
  match p with
  | Some a => with_objects (<[a := destruction_notify_object this]>) s
  | None => s
  end.

(** The private constructor [owned_pointer(element_type *const p, const bool
    acquired)] (lines 254-266).  When the secret locks a block, the handle is
    on that block and reads the pointer the block has kept ([p] is not
    stored); otherwise the new block stores [p]. *)
Definition owned_pointer_raw (T : element_type) (p : address) (acquired : bool)
    (s : heap) : shared_ptr * heap :=
  let '(ss, base, s1) := get_secret_when_possible T p s in
  let '(base, s2) :=
    match base with
    | Some c => (Some c, s1)
    | None =>
        let '(c, s') := alloc_block p s1 in
        (Some c, set_shared_secret_when_possible (Some c) ss s')
    end in
  (base, store_acquired base acquired s2).

(** [owned_pointer()] and [owned_pointer(std::nullptr_t)] (lines 128-129). *)
Definition owned_pointer_default : shared_ptr := None.

(** [owned_pointer(std::unique_ptr<T> p)] (lines 131-136), on the address
    [p.release()] hands over; the caller's unique_ptr is left empty. *)
Definition owned_pointer_from_unique_ptr (T : element_type) (p : address)
    (s : heap) : shared_ptr * heap :=
  let not_acquired := false in
  owned_pointer_raw T p not_acquired s.

(** [owned_pointer(detail::unique_ptr_link<T>&& p)] (lines 138-143): [p._ptr]
    is read and [p] is left as it is. *)
Definition owned_pointer_from_link (T : element_type) (p : unique_ptr_link)
    (s : heap) : shared_ptr * heap :=
  let is_acquired := true in
  owned_pointer_raw T (link_ptr p) is_acquired s.

(** [owned_pointer(const owned_pointer<T>& p)] (lines 145-168); the copy
    assignment to a handle that holds a block gives that one back as well,
    as [release] does.  The move constructor and the move assignment pass a
    reference on and leave the heap as it is. *)
Definition owned_pointer_copy (p : shared_ptr) (s : heap) : shared_ptr * heap :=
  copy p s.

(** [make_owned<T>(args...)] (lines 301-314): the object is a
    destruction_notify_object<T> when [T] has a virtual destructor and a [T]
    otherwise, and the unique_ptr on it converts to the owned_pointer. *)
Definition make_owned (T : element_type) (s : heap) : shared_ptr * heap :=
  let ptr_type :=
    if has_virtual_destructor T then destruction_notify_object None
    else plain_object in
  let '(p, s1) := alloc_object ptr_type s in
  owned_pointer_from_unique_ptr T p s1.

(** ** The rest of the class *)

(** [use_count] (line 126, [using base::use_count]): the strong count of
    the block, 0 for an empty handle. *)
Definition owned_pointer_use_count (this : shared_ptr) (s : heap) : nat :=
  match this with
  | Some c =>
      match blocks s !! c with
      | Some cell => use_count cell
      | None => 0%nat
      end
  | None => 0%nat
  end.

(** The copy assignment [operator=(const owned_pointer<T>& pointee)] (lines
    159-168), [base::operator=(pointee)]: as [shared_ptr(pointee).swap( *this)]
    it takes a reference on the block of [pointee] first and gives the one
    [this] held back afterwards.  Returns the new [this]. *)
Definition operator_assign (this pointee : shared_ptr) (s : heap)
    : shared_ptr * heap :=
  let '(tmp, s1) := copy pointee s in
  (tmp, release this s1).

(** The move constructor [owned_pointer(owned_pointer<T>&& p)] (lines
    151-157), [base{std::move(p)}]: the new handle and what is left of [p]. *)
Definition owned_pointer_move (p : shared_ptr) : shared_ptr * shared_ptr :=
  (p, None).

(** The move assignment [operator=(owned_pointer<T>&& p)] (lines 170-179),
    [base::operator=(std::move(p))], for [p] another object than [this]:
    [this] takes the reference of [p], [p] is left empty and the reference
    [this] held is given back.  Returns the new [this], what is left of [p]
    and the heap. *)
Definition operator_move_assign (this p : shared_ptr) (s : heap)
    : shared_ptr * shared_ptr * heap :=
  (p, None, release this s).

(** [explicit operator unique_ptr_t() const] (lines 223-226). *)
Definition operator_unique_ptr_t (this : shared_ptr) (s : heap)
    : result address * heap :=
  unique_ptr this s.

(** ** Comparison operators (lines 328-434) *)

Definition eq_nullptr (p1 : shared_ptr) (s : heap) : bool :=
  (compare p1 nullptr s =? 0)%Z.
Definition ne_nullptr (p1 : shared_ptr) (s : heap) : bool :=
  negb (compare p1 nullptr s =? 0)%Z.
Definition nullptr_eq (p1 : shared_ptr) (s : heap) : bool := eq_nullptr p1 s.
Definition nullptr_ne (p1 : shared_ptr) (s : heap) : bool := ne_nullptr p1 s.

Definition operator_eq (p1 p2 : shared_ptr) (s : heap) : bool :=
  (compare_owned p1 p2 s =? 0)%Z.
Definition operator_ne (p1 p2 : shared_ptr) (s : heap) : bool :=
  negb (operator_eq p1 p2 s).
Definition operator_lt (p1 p2 : shared_ptr) (s : heap) : bool :=
  (compare_owned p1 p2 s <? 0)%Z.
Definition operator_le (p1 p2 : shared_ptr) (s : heap) : bool :=
  (compare_owned p1 p2 s <=? 0)%Z.
Definition operator_gt (p1 p2 : shared_ptr) (s : heap) : bool :=
  (compare_owned p1 p2 s >? 0)%Z.
Definition operator_ge (p1 p2 : shared_ptr) (s : heap) : bool :=
  (compare_owned p1 p2 s >=? 0)%Z.

(** Against a raw pointer [T2*], and against [std::unique_ptr<T2>] through
    its [get()]; either side. *)
Definition eq_raw (p1 : shared_ptr) (p2 : address) (s : heap) : bool :=
  (compare p1 p2 s =? 0)%Z.
Definition raw_eq (p1 : address) (p2 : shared_ptr) (s : heap) : bool :=
  (compare p2 p1 s =? 0)%Z.
Definition ne_raw (p1 : shared_ptr) (p2 : address) (s : heap) : bool :=
  negb (compare p1 p2 s =? 0)%Z.
Definition raw_ne (p1 : address) (p2 : shared_ptr) (s : heap) : bool :=
  negb (compare p2 p1 s =? 0)%Z.
Definition eq_unique (p1 : shared_ptr) (p2 : address) (s : heap) : bool :=
  (compare p1 p2 s =? 0)%Z.
Definition unique_eq (p1 : address) (p2 : shared_ptr) (s : heap) : bool :=
  (compare p2 p1 s =? 0)%Z.
Definition ne_unique (p1 : shared_ptr) (p2 : address) (s : heap) : bool :=
  negb (compare p1 p2 s =? 0)%Z.
Definition unique_ne (p1 : address) (p2 : shared_ptr) (s : heap) : bool :=
  negb (compare p2 p1 s =? 0)%Z.

(** The comparison expressions [l op r] over the operand types of the
    header: a shared handle, a raw pointer [T*], a [std::unique_ptr] (by the
    address it holds) and [nullptr]. *)
Inductive operand :=
| owned (p : shared_ptr)
| raw (a : address)
| unique (u : address)
| null.

Inductive comparison_operator := op_eq | op_ne | op_lt | op_le | op_gt | op_ge.

(** The operator of lines 328-434 that [l op r] selects, applied; [None]
    where the header declares none for the operand types.  (The operators
    are templates on [owned_pointer<T>], so no conversion of an operand
    brings another one in.) *)
Definition operator_call (op : comparison_operator) (l r : operand) (s : heap)
    : option bool :=
  match op, l, r with
  | op_eq, owned p1, null => Some (eq_nullptr p1 s)
  | op_ne, owned p1, null => Some (ne_nullptr p1 s)
  | op_eq, null, owned p1 => Some (nullptr_eq p1 s)
  | op_ne, null, owned p1 => Some (nullptr_ne p1 s)
  | op_eq, owned p1, owned p2 => Some (operator_eq p1 p2 s)
  | op_ne, owned p1, owned p2 => Some (operator_ne p1 p2 s)
  | op_lt, owned p1, owned p2 => Some (operator_lt p1 p2 s)
  | op_le, owned p1, owned p2 => Some (operator_le p1 p2 s)
  | op_gt, owned p1, owned p2 => Some (operator_gt p1 p2 s)
  | op_ge, owned p1, owned p2 => Some (operator_ge p1 p2 s)
  | op_eq, owned p1, raw p2 => Some (eq_raw p1 p2 s)
  | op_eq, raw p1, owned p2 => Some (raw_eq p1 p2 s)
  | op_ne, owned p1, raw p2 => Some (ne_raw p1 p2 s)
  | op_ne, raw p1, owned p2 => Some (raw_ne p1 p2 s)
  | op_eq, owned p1, unique p2 => Some (eq_unique p1 p2 s)
  | op_eq, unique p1, owned p2 => Some (unique_eq p1 p2 s)
  | op_ne, owned p1, unique p2 => Some (ne_unique p1 p2 s)
  | op_ne, unique p1, owned p2 => Some (unique_ne p1 p2 s)
  | _, _, _ => None
  end.

(** ** Client programs

    A client is a sequence of calls of the public interface, each on
    arguments of its choice: [auto p = make_owned<T>()], a
    [std::unique_ptr<T> u(new T)] of its own, [owned_pointer<T>(std::move(u))]
    and [owned_pointer<T>(link(u))] on the address [u] holds, a copy,
    [p.unique_ptr()], [p.get()], the end of a shared handle, and the end of
    a unique_ptr, which deletes what it holds.  The sequences C++ would not
    let a client write (a handle destroyed twice, say) are among them, so
    what holds of every sequence holds of the programs. *)
Inductive operation :=
| call_make_owned (T : element_type)
| call_new (T : element_type)
| call_from_unique_ptr (T : element_type) (u : address)
| call_from_link (T : element_type) (u : address)
| call_copy (p : shared_ptr)
| call_unique_ptr (p : shared_ptr)
| call_get (p : shared_ptr)
| call_destroy (p : shared_ptr)
| call_delete (u : address).

Definition step (s : heap) (o : operation) : heap :=
  match o with
  | call_make_owned T => snd (make_owned T s)
  | call_new T => snd (alloc_object plain_object s)
  | call_from_unique_ptr T u => snd (owned_pointer_from_unique_ptr T u s)
  | call_from_link T u => snd (owned_pointer_from_link T (link u) s)
  | call_copy p => snd (owned_pointer_copy p s)
  | call_unique_ptr p => snd (unique_ptr p s)
  | call_get p => s
  | call_destroy p => release p s
  | call_delete u => delete_object u s
  end.

Definition run (s : heap) (os : list operation) : heap := foldl step s os.

(** * Specification vocabulary

    What the statements below are written in: the cases of the constructor
    from a raw pointer, the effect of a deletion, and the invariants of the
    heaps a client can reach. *)

(** ** The constructor from a raw pointer *)

(** The secret [dynamic_cast] finds behind [p] seen as a [T*], if any. *)
Definition secret_of (T : element_type) (p : address) (s : heap) : option weak_ptr :=
  if is_polymorphic T && negb (p =? nullptr) then
    match objects s !! p with
    | Some (destruction_notify_object w) => Some w
    | _ => None
    end
  else None.

(** The live control block the back-reference of [p] resolves to, if any. *)
Definition back_reference (T : element_type) (p : address) (s : heap) : shared_ptr :=
  w ← secret_of T p s; lockable w s.

(** ** Destruction *)

(** The block [delete_event] of the object at [p] marks, if any. *)
Definition notified (p : address) (s : heap) : shared_ptr :=
  match objects s !! p with
  | Some (destruction_notify_object w) => lockable w s
  | _ => None
  end.

Definition mark_deleted (h : shared_ptr) (m : gmap N shared_cell)
    : gmap N shared_cell :=
  match h with
  | Some c => alter (set_tuple (set_deleted true)) c m
  | None => m
  end.

(** The entry [delete p] adds to the trace of [delete_event] calls. *)
Definition fired (p : address) (s : heap) : list N :=
  match objects s !! p with
  | Some (destruction_notify_object _) => [p]
  | _ => []
  end.

(** ** Invariants of the free store *)

(** What every heap a client can build satisfies, whatever it calls: block
    and object identities come from the allocator, a block in the heap is
    held by somebody, and [delete_event] has run for freed resources only,
    once each. *)
Record heap_ok (s : heap) : Prop := {
  blocks_allocated : ∀ c cell,
    blocks s !! c = Some cell → c < next_block s ∧ (0 < use_count cell)%nat;
  objects_allocated : ∀ a o,
    objects s !! a = Some o → nullptr < a < next_object s;
  next_object_nonnull : nullptr < next_object s;
  events_of_freed : ∀ a,
    a ∈ delete_events s → a < next_object s ∧ objects s !! a = None;
  events_once : NoDup (delete_events s)
}.

(** ** How a block changes over time *)

Definition ages (x y : control_block) : Prop :=
  _ptr x = _ptr y ∧ (_deleted x = true → _deleted y = true).

(** From [s] to [s'] no block came into being under an old identity, every
    block kept its pointer and its deleted flag once set, and the blocks
    outside [reset] kept their acquired flag once set. *)
Definition evolves (reset : N → Prop) (s s' : heap) : Prop :=
  next_block s ≤ next_block s' ∧
  ∀ c cell', blocks s' !! c = Some cell' → c < next_block s →
    ∃ cell, blocks s !! c = Some cell ∧
      ages (tuple cell) (tuple cell') ∧
      (¬ reset c → _acquired (tuple cell) = true →
       _acquired (tuple cell') = true).

(** The call that makes a shared handle out of a unique_ptr on a resource
    whose back-reference resolves to block [c]: it attaches to [c] and clears
    its acquired flag. *)
Definition rewrapped (s : heap) (o : operation) (c : N) : Prop :=
  match o with
  | call_from_unique_ptr T u => back_reference T u s = Some c
  | _ => False
  end.

Fixpoint never_rewrapped (c : N) (s : heap) (os : list operation) : Prop :=
  match os with
  | [] => True
  | o :: os => ¬ rewrapped s o c ∧ never_rewrapped c (step s o) os
  end.

(** ** Well-typed clients *)

(** A client that hands the two constructors taking the pointer of a
    [std::unique_ptr<T>] what a unique_ptr holds, null or a live resource,
    and a resource with a secret through a polymorphic [T] only.  (C++ also
    lets a destruction_notify_object be seen through a base class that is not
    polymorphic; the constructor then finds no secret and the handle gets a
    block of its own, as on a resource without secret.) *)
Definition well_typed (s : heap) (o : operation) : Prop :=
  match o with
  | call_from_unique_ptr T u | call_from_link T u =>
      (u = nullptr ∨ is_Some (objects s !! u)) ∧
      (∀ w, objects s !! u = Some (destruction_notify_object w) →
            is_polymorphic T = true)
  | _ => True
  end.

Fixpoint well_typed_run (s : heap) (os : list operation) : Prop :=
  match os with
  | [] => True
  | o :: os => well_typed s o ∧ well_typed_run (step s o) os
  end.

Inductive reachable : heap → Prop :=
| reachable_empty : reachable empty_heap
| reachable_step (s : heap) (o : operation) :
    reachable s → well_typed s o → reachable (step s o).

(** The pointer of every block has been allocated, and the secret of a live
    resource names the block that points at the resource. *)
Record tracked (s : heap) : Prop := {
  pointers_allocated : ∀ c cell,
    blocks s !! c = Some cell → _ptr (tuple cell) < next_object s;
  secret_names_block : ∀ c cell w,
    blocks s !! c = Some cell →
    objects s !! _ptr (tuple cell) = Some (destruction_notify_object w) →
    w = Some c
}.

(** The resource at [a] has a secret for as long as it lives, and the
    secret names block [c] for as long as [c] lives. *)
Definition attached_to (a : address) (c : N) (s : heap) : Prop :=
  a < next_object s ∧ c < next_block s ∧
  ∀ o, objects s !! a = Some o →
    ∃ w, o = destruction_notify_object w ∧
         (is_Some (blocks s !! c) → w = Some c).

(** What the secrets and the deleted flags of a heap say is true: a secret
    names a block that was allocated and, while that block lives, points at
    the resource of the secret; a block is marked deleted only when its
    resource has been freed. *)
Record marks_ok (s : heap) : Prop := {
  secret_points_home : ∀ a c cell,
    objects s !! a = Some (destruction_notify_object (Some c)) →
    blocks s !! c = Some cell → _ptr (tuple cell) = a;
  secret_allocated : ∀ a c,
    objects s !! a = Some (destruction_notify_object (Some c)) →
    c < next_block s;
  deleted_means_freed : ∀ c cell,
    blocks s !! c = Some cell → _deleted (tuple cell) = true →
    _ptr (tuple cell) < next_object s ∧
    objects s !! _ptr (tuple cell) = None
}.

(** ** The address of a handle *)

(** The control block of handle [p] stores address [x]; an empty handle
    stands for the null address. *)
Definition holds (p : shared_ptr) (s : heap) (x : address) : Prop :=
  match p with
  | Some c => ∃ cell, blocks s !! c = Some cell ∧ _ptr (tuple cell) = x
  | None => x = nullptr
  end.

(** ** Ownership *)

(** Every block that points at [a] is acquired. *)
Definition all_acquired (a : address) (s : heap) : Prop :=
  a < next_object s ∧
  ∀ c cell, blocks s !! c = Some cell → _ptr (tuple cell) = a →
            _acquired (tuple cell) = true.

(** The calls that leave an acquired resource alone: all but the deletion
    of the resource itself and the constructor from a unique_ptr. *)
Definition spares (a : address) (o : operation) : Prop :=
  match o with
  | call_from_unique_ptr _ _ => False
  | call_delete u => u ≠ a
  | _ => True
  end.

(** The calls that end neither a shared handle nor a unique_ptr. *)
Definition ends_nothing (o : operation) : Prop :=
  match o with
  | call_destroy _ | call_delete _ => False
  | _ => True
  end.

(** * Properties *)

(** ** Reading and writing one block *)

Lemma deref_Some (c : N) (s : heap) :
  deref (Some c) s = tuple <$> blocks s !! c.
Proof. unfold deref. simpl. by destruct (blocks s !! c). Qed.

Lemma deref_None (s : heap) : deref None s = None.
Proof. reflexivity. Qed.

Lemma deref_store_acquired (this : shared_ptr) (b : bool) (s : heap) :
  deref this (store_acquired this b s) = set_acquired b <$> deref this s.
Proof.
  destruct this as [c|]; [|reflexivity].
  rewrite !deref_Some. simpl. rewrite lookup_alter_eq.
  by destruct (blocks s !! c).
Qed.

Lemma get_pointer_store_acquired (this : shared_ptr) (b : bool) (s : heap) :
  get_pointer this (store_acquired this b s) = get_pointer this s.
Proof.
  unfold get_pointer. rewrite deref_store_acquired.
  by destruct (deref this s).
Qed.

Lemma acquired_store_acquired (this : shared_ptr) (b : bool) (s : heap) :
  is_Some (deref this s) → acquired this (store_acquired this b s) = b.
Proof.
  intros [cb Hcb]. unfold acquired. by rewrite deref_store_acquired, Hcb.
Qed.

Lemma expired_store_acquired (this : shared_ptr) (b : bool) (s : heap) :
  expired this (store_acquired this b s) = expired this s.
Proof.
  unfold expired. rewrite deref_store_acquired. by destruct (deref this s).
Qed.

Lemma get_pointer_nonnull_deref (this : shared_ptr) (s : heap) :
  get_pointer this s ≠ nullptr → is_Some (deref this s).
Proof.
  unfold get_pointer. destruct (deref this s); [eauto | congruence].
Qed.

(** ** Comparison *)

Lemma compare_spec (this : shared_ptr) (ptr : address) (s : heap) :
  (compare this ptr s = 0%Z ↔ get_pointer this s = ptr) ∧
  (compare this ptr s = (-1)%Z ↔ get_pointer this s < ptr) ∧
  (compare this ptr s = 1%Z ↔ ptr < get_pointer this s).
Proof.
  unfold compare.
  destruct (N.eqb_spec (get_pointer this s) ptr) as [Heq|Hne].
  - repeat split; try done; lia.
  - destruct (N.ltb_spec (get_pointer this s) ptr);
      repeat split; try done; lia.
Qed.

Section comparison.
Variable s : heap.
Implicit Types p q r : shared_ptr.

Local Notation "[ p ]" := (get_pointer p s).

Lemma operator_eq_iff p q : operator_eq p q s = true ↔ [p] = [q].
Proof.
  unfold operator_eq, compare_owned.
  rewrite Z.eqb_eq. apply compare_spec.
Qed.

Lemma operator_lt_iff p q : operator_lt p q s = true ↔ [p] < [q].
Proof.
  unfold operator_lt, compare_owned. rewrite Z.ltb_lt.
  destruct (compare_spec p [q] s) as (H0 & Hlt & Hgt).
  rewrite <- Hlt. unfold compare in *.
  destruct (_ =? _); [lia|]. destruct (_ <? _); lia.
Qed.

Lemma operator_gt_iff p q : operator_gt p q s = true ↔ [q] < [p].
Proof.
  unfold operator_gt, compare_owned. rewrite Z.gtb_ltb, Z.ltb_lt.
  destruct (compare_spec p [q] s) as (H0 & Hlt & Hgt).
  rewrite <- Hgt. unfold compare in *.
  destruct (_ =? _); [lia|]. destruct (_ <? _); lia.
Qed.

Lemma operator_le_iff p q : operator_le p q s = true ↔ [p] ≤ [q].
Proof.
  unfold operator_le, compare_owned, compare. rewrite Z.leb_le.
  destruct (N.eqb_spec [p] [q]); [lia|].
  destruct (N.ltb_spec [p] [q]); lia.
Qed.

Lemma operator_ge_iff p q : operator_ge p q s = true ↔ [q] ≤ [p].
Proof.
  unfold operator_ge, compare_owned, compare. rewrite Z.geb_leb, Z.leb_le.
  destruct (N.eqb_spec [p] [q]); [lia|].
  destruct (N.ltb_spec [p] [q]); lia.
Qed.

Lemma operator_ne_iff p q : operator_ne p q s = true ↔ [p] ≠ [q].
Proof.
  unfold operator_ne. rewrite negb_true_iff, <- not_true_iff_false.
  by rewrite operator_eq_iff.
Qed.

Lemma eq_raw_iff p (a : address) : eq_raw p a s = true ↔ [p] = a.
Proof. unfold eq_raw. rewrite Z.eqb_eq. apply compare_spec. Qed.
End comparison.

Lemma holds_get_pointer (p : shared_ptr) (s : heap) (x : address) :
  holds p s x → get_pointer p s = x.
Proof.
  destruct p as [c|]; simpl.
  - intros (cell & Hc & <-). unfold get_pointer. by rewrite deref_Some, Hc.
  - by intros ->.
Qed.

(** C8, as amended.  Handles [p], [q], [r] have control blocks that store
    the addresses [x], [y], [z] (null for an empty handle).  [compare] is 0
    exactly when the two addresses are equal (null equals null), -1 when the
    first is lower and +1 when it is higher.  Between shared handles the six
    operators are the comparisons of the stored addresses: equality and its
    negation, a strict total order (irreflexive, transitive, trichotomous)
    with its converse, and the two non-strict orders.  Against a raw pointer,
    a unique_ptr and [nullptr], on either side, the header declares [==] and
    [!=], which agree with those between handles, and no [<], [<=], [>] or
    [>=].  Every comparison is a function of the heap that returns only its
    answer: the heap is not changed. *)
Theorem C8_address_order
    (p q r : shared_ptr) (x y z a : address) (s : heap) :
  holds p s x → holds q s y → holds r s z →
  compare p a s = (if x =? a then 0%Z else if x <? a then (-1)%Z else 1%Z) ∧
  (compare p a s = 0%Z ↔ x = a) ∧
  (compare p a s = (-1)%Z ↔ x < a) ∧
  (compare p a s = 1%Z ↔ a < x) ∧
  compare_owned p q s = compare p y s ∧
  compare None nullptr s = 0%Z ∧
  operator_call op_eq (owned None) (owned None) s = Some true ∧
  operator_call op_eq (owned p) (owned q) s = Some (x =? y) ∧
  operator_call op_ne (owned p) (owned q) s = Some (negb (x =? y)) ∧
  operator_call op_lt (owned p) (owned q) s = Some (x <? y) ∧
  operator_call op_le (owned p) (owned q) s = Some (x <=? y) ∧
  operator_call op_gt (owned p) (owned q) s = Some (y <? x) ∧
  operator_call op_ge (owned p) (owned q) s = Some (y <=? x) ∧
  operator_lt p p s = false ∧
  (operator_lt p q s = true → operator_lt q r s = true →
   operator_lt p r s = true) ∧
  (operator_lt p q s = true ∧ operator_eq p q s = false ∧
     operator_gt p q s = false ∨
   operator_lt p q s = false ∧ operator_eq p q s = true ∧
     operator_gt p q s = false ∨
   operator_lt p q s = false ∧ operator_eq p q s = false ∧
     operator_gt p q s = true) ∧
  operator_le p q s = operator_lt p q s || operator_eq p q s ∧
  (∀ op,
     let answer :=
       match op with
       | op_eq => Some (x =? a)
       | op_ne => Some (negb (x =? a))
       | _ => None
       end in
     operator_call op (owned p) (raw a) s = answer ∧
     operator_call op (raw a) (owned p) s = answer ∧
     operator_call op (owned p) (unique a) s = answer ∧
     operator_call op (unique a) (owned p) s = answer) ∧
  (∀ op,
     let answer :=
       match op with
       | op_eq => Some (x =? nullptr)
       | op_ne => Some (negb (x =? nullptr))
       | _ => None
       end in
     operator_call op (owned p) null s = answer ∧
     operator_call op null (owned p) s = answer) ∧
  operator_call op_eq (owned p) (raw y) s =
    operator_call op_eq (owned p) (owned q) s ∧
  operator_call op_ne (owned p) (unique y) s =
    operator_call op_ne (owned p) (owned q) s.
Proof.
  intros Hp%holds_get_pointer Hq%holds_get_pointer Hr%holds_get_pointer.
  assert (Hcmp : ∀ b, compare p b s =
            (if x =? b then 0%Z else if x <? b then (-1)%Z else 1%Z))
    by (intros b; unfold compare; by rewrite Hp).
  assert (Hpq : compare_owned p q s = compare p y s)
    by (unfold compare_owned; by rewrite Hq).
  assert (Hqr : compare_owned q r s =
            (if y =? z then 0%Z else if y <? z then (-1)%Z else 1%Z))
    by (unfold compare_owned, compare; by rewrite Hq, Hr).
  assert (Hpr : compare_owned p r s =
            (if x =? z then 0%Z else if x <? z then (-1)%Z else 1%Z))
    by (unfold compare_owned; rewrite Hr; apply Hcmp).
  assert (Hpp : compare_owned p p s = 0%Z)
    by (unfold compare_owned; rewrite Hp, Hcmp; by rewrite N.eqb_refl).
  split; [apply Hcmp|].
  split; [rewrite Hcmp; destruct (N.eqb_spec x a), (N.ltb_spec x a);
          split; (done || lia)|].
  split; [rewrite Hcmp; destruct (N.eqb_spec x a), (N.ltb_spec x a);
          split; (done || lia)|].
  split; [rewrite Hcmp; destruct (N.eqb_spec x a), (N.ltb_spec x a);
          split; (done || lia)|].
  split; [done|]. split; [done|]. split; [done|].
  unfold operator_call, operator_ne, operator_eq, operator_lt, operator_le,
    operator_gt, operator_ge, eq_raw, raw_eq, ne_raw, raw_ne, eq_unique,
    unique_eq, ne_unique, unique_ne, nullptr_eq, nullptr_ne, eq_nullptr,
    ne_nullptr.
  rewrite Hpq, Hqr, Hpr, Hpp, !Hcmp.
  destruct (N.eqb_spec x y), (N.ltb_spec x y), (N.leb_spec x y),
    (N.ltb_spec y x), (N.leb_spec y x); try lia;
  destruct (N.eqb_spec y z), (N.ltb_spec y z); try lia;
  destruct (N.eqb_spec x z), (N.ltb_spec x z); try lia;
  (repeat match goal with |- _ ∧ _ => split end; try done;
   try (intros op; destruct op; simpl; try done;
        destruct (x =? _); try done; destruct (x <? _); done);
   try (left; done); try (right; left; done); try (right; right; done)).
Qed.

Lemma C8_address_order_witness :
  let s := run empty_heap [call_make_owned non_polymorphic;
                           call_make_owned virtual_destructor] in
  holds (Some 0) s 1 ∧ holds (Some 1) s 2 ∧ holds None s nullptr ∧
  operator_call op_lt (owned (Some 0)) (owned (Some 1)) s = Some true ∧
  operator_call op_eq (unique 2) (owned (Some 1)) s = Some true.
Proof.
  cbv zeta.
  assert (H0 : holds (Some 0) (run empty_heap
            [call_make_owned non_polymorphic;
             call_make_owned virtual_destructor]) 1)
    by (vm_compute; eauto).
  assert (H1 : holds (Some 1) (run empty_heap
            [call_make_owned non_polymorphic;
             call_make_owned virtual_destructor]) 2)
    by (vm_compute; eauto).
  assert (H2 : holds None (run empty_heap
            [call_make_owned non_polymorphic;
             call_make_owned virtual_destructor]) nullptr)
    by reflexivity.
  split; [exact H0|]. split; [exact H1|]. split; [exact H2|].
  split.
  - by destruct (C8_address_order _ _ _ _ _ _ 2 _ H0 H1 H2)
      as (_ & _ & _ & _ & _ & _ & _ & _ & _ & ? & _).
  - destruct (C8_address_order _ _ _ _ _ _ 2 _ H1 H0 H2)
      as (_ & _ & _ & _ & _ & _ & _ & _ & _ & _ & _ & _ & _ & _ & _ & _ & _ &
          Hraw & _).
    by destruct (Hraw op_eq) as (_ & _ & _ & ?).
Defined.

(** The claim as first written has [<], [<=], [>] and [>=] between a shared
    handle and a raw address or a unique_ptr.  The header declares these four
    between shared handles only; against a raw pointer, a unique_ptr and
    [nullptr] there are [==] and [!=] and nothing else. *)
Lemma C8_counterexample :
  let s := snd (make_owned non_polymorphic empty_heap) in
  operator_call op_lt (owned (Some 0)) (owned None) s = Some false ∧
  operator_call op_lt (owned (Some 0)) (raw 2) s = None ∧
  operator_call op_le (owned (Some 0)) (unique 2) s = None ∧
  operator_call op_gt (raw 2) (owned (Some 0)) s = None ∧
  operator_call op_ge (unique 2) (owned (Some 0)) s = None ∧
  operator_call op_lt (owned (Some 0)) null s = None ∧
  operator_call op_ne (owned (Some 0)) (raw 2) s = Some true.
Proof. vm_compute. done. Qed.

(** ** The private constructor *)

Lemma get_secret_when_possible_eq (T : element_type) (p : address) (s : heap) :
  get_secret_when_possible T p s =
    match secret_of T p s with
    | Some w => (Some p, fst (lock w s), snd (lock w s))
    | None => (None, None, s)
    end.
Proof.
  unfold get_secret_when_possible, secret_of.
  destruct (is_polymorphic T); [|done]. destruct (p =? nullptr); [done|].
  simpl. destruct (objects s !! p) as [[|w]|]; try done.
  by destruct (lock w s).
Qed.

Lemma lock_eq (w : weak_ptr) (s : heap) :
  lock w s =
    match lockable w s with
    | Some c => (Some c, with_blocks (alter (set_use_count S) c) s)
    | None => (None, s)
    end.
Proof. reflexivity. Qed.

Lemma lockable_Some (w : weak_ptr) (s : heap) (c : N) :
  lockable w s = Some c ↔
  w = Some c ∧ ∃ cell, blocks s !! c = Some cell ∧ (0 < use_count cell)%nat.
Proof.
  unfold lockable. destruct w as [c'|]; simpl.
  - destruct (blocks s !! c') as [cell|] eqn:Hc; simpl.
    + case_decide; split.
      * intros [= ->]. eauto.
      * by intros [[= ->] _].
      * done.
      * intros [[= ->] (? & ? & ?)]. simplify_eq. lia.
    + split; [done|]. intros [[= ->] (? & ? & ?)]. congruence.
  - split; [done | by intros [? _]].
Qed.

Lemma secret_of_Some (T : element_type) (p : address) (s : heap) (w : weak_ptr) :
  secret_of T p s = Some w ↔
  is_polymorphic T = true ∧ p ≠ nullptr ∧
  objects s !! p = Some (destruction_notify_object w).
Proof.
  unfold secret_of. destruct (is_polymorphic T); simpl.
  - destruct (N.eqb_spec p nullptr); simpl.
    + split; [done | by intros (_ & ? & _)].
    + destruct (objects s !! p) as [[|w']|]; split;
        try done; try (by intros (_ & _ & ?)).
      * intros [= ->]. done.
      * intros (_ & _ & [= ->]). done.
  - split; [done | by intros (? & _)].
Qed.

Lemma back_reference_Some (T : element_type) (p : address) (s : heap) (c : N) :
  back_reference T p s = Some c ↔
  is_polymorphic T = true ∧ p ≠ nullptr ∧
  objects s !! p = Some (destruction_notify_object (Some c)) ∧
  ∃ cell, blocks s !! c = Some cell ∧ (0 < use_count cell)%nat.
Proof.
  unfold back_reference. split.
  - destruct (secret_of T p s) as [w|] eqn:Hw; [|done].
    change (lockable w s = Some c → is_polymorphic T = true ∧ p ≠ nullptr ∧
      objects s !! p = Some (destruction_notify_object (Some c)) ∧
      ∃ cell, blocks s !! c = Some cell ∧ (0 < use_count cell)%nat).
    intros [-> Hc]%lockable_Some.
    apply secret_of_Some in Hw as (? & ? & ?). done.
  - intros (HT & Hp & Ho & Hc).
    assert (secret_of T p s = Some (Some c)) as ->
      by by apply secret_of_Some.
    by apply lockable_Some.
Qed.

(** The constructor attaches to the block the back-reference resolves to. *)
Lemma owned_pointer_raw_attach (T : element_type) (p : address) (a : bool)
    (s : heap) (c : N) :
  back_reference T p s = Some c →
  owned_pointer_raw T p a s =
    (Some c,
     with_blocks (alter (set_tuple (set_acquired a)) c)
       (with_blocks (alter (set_use_count S) c) s)).
Proof.
  unfold back_reference, owned_pointer_raw. intros Hb.
  rewrite get_secret_when_possible_eq.
  destruct (secret_of T p s) as [w|]; [|done]. simpl in Hb.
  rewrite lock_eq, Hb. reflexivity.
Qed.

(** Without one it allocates a block and, having found a secret, points the
    secret at the new block. *)
Lemma owned_pointer_raw_fresh (T : element_type) (p : address) (a : bool)
    (s : heap) :
  back_reference T p s = None →
  owned_pointer_raw T p a s =
    (Some (next_block s),
     {| blocks :=
          <[next_block s := mk_cell (mk_control_block p a false) 1]> (blocks s);
        objects :=
          match secret_of T p s with
          | Some _ =>
              <[p := destruction_notify_object (Some (next_block s))]> (objects s)
          | None => objects s
          end;
        next_block := N.succ (next_block s);
        next_object := next_object s;
        delete_events := delete_events s |}).
Proof.
  unfold back_reference, owned_pointer_raw. intros Hb.
  rewrite get_secret_when_possible_eq.
  destruct (secret_of T p s) as [w|]; simpl in Hb |- *.
  - rewrite lock_eq, Hb. simpl. unfold with_blocks, with_objects. simpl.
    by rewrite alter_insert_eq.
  - unfold with_blocks. simpl. by rewrite alter_insert_eq.
Qed.

Lemma owned_pointer_raw_acquired (T : element_type) (p : address) (a : bool)
    (s : heap) :
  let '(this, s1) := owned_pointer_raw T p a s in
  is_Some this ∧ is_Some (deref this s1) ∧ acquired this s1 = a.
Proof.
  destruct (back_reference T p s) as [c|] eqn:Hb.
  - rewrite (owned_pointer_raw_attach _ _ _ _ _ Hb).
    unfold back_reference in Hb.
    destruct (secret_of T p s) as [w|]; [|done]. simpl in Hb.
    apply lockable_Some in Hb as (-> & cell & Hcell & _).
    unfold acquired. rewrite deref_Some. simpl.
    rewrite !lookup_alter_eq, Hcell. simpl. eauto.
  - rewrite (owned_pointer_raw_fresh _ _ _ _ Hb).
    unfold acquired. rewrite deref_Some. simpl.
    rewrite lookup_insert_eq. simpl. eauto.
Qed.

Lemma secret_of_nullptr (T : element_type) (s : heap) :
  secret_of T nullptr s = None.
Proof. unfold secret_of. by destruct (is_polymorphic T). Qed.

(** ** Link tokens *)

(** C10: a shared handle built from the link token of an empty unique_ptr is
    built without an exception; its [get] returns null and its [operator bool]
    is false, yet its [acquired] is true, while a default- or
    nullptr-constructed handle reports [acquired] false. *)
Theorem C10_link_of_empty_unique_ptr (T : element_type) (s : heap) :
  let '(p, s1) := owned_pointer_from_link T (link nullptr) s in
  is_Some p ∧
  get p s1 = returns nullptr ∧
  operator_bool p s1 = false ∧
  acquired p s1 = true ∧
  acquired owned_pointer_default s1 = false ∧
  operator_bool owned_pointer_default s1 = false.
Proof.
  unfold owned_pointer_from_link. simpl.
  rewrite owned_pointer_raw_fresh
    by (unfold back_reference; by rewrite secret_of_nullptr).
  rewrite secret_of_nullptr.
  unfold get, throw_if_is_destroyed_and_has_virtual_dtor, expired,
    operator_bool, get_pointer, acquired.
  rewrite deref_Some. simpl. rewrite lookup_insert_eq. simpl. eauto 10.
Qed.

Lemma owned_pointer_raw_link (T : element_type) (u : address) (s : heap) :
  let '(p, s1) := owned_pointer_raw T u true s in
  acquired p s1 = true ∧
  (∀ a, is_Some (objects s1 !! a) ↔ is_Some (objects s !! a)) ∧
  delete_events s1 = delete_events s ∧
  (back_reference T u s = None → get_pointer p s1 = u).
Proof.
  pose proof (owned_pointer_raw_acquired T u true s) as Hacq.
  destruct (back_reference T u s) as [c|] eqn:Hb.
  - rewrite (owned_pointer_raw_attach _ _ _ _ _ Hb) in Hacq |- *.
    destruct Hacq as (_ & _ & ->). simpl. done.
  - rewrite (owned_pointer_raw_fresh _ _ _ _ Hb) in Hacq |- *.
    destruct Hacq as (_ & _ & ->). simpl.
    repeat split; try done.
    + destruct (secret_of T u s) eqn:Hs; [|done].
      intros Ha. destruct (decide (u = a)) as [->|].
      * unfold secret_of in Hs.
        destruct (is_polymorphic T && negb (a =? nullptr)); [|done].
        destruct (objects s !! a); [eauto | done].
      * by rewrite lookup_insert_ne in Ha.
    + destruct (secret_of T u s) eqn:Hs; [|done].
      intros Ha. destruct (decide (u = a)) as [->|].
      * rewrite lookup_insert_eq. eauto.
      * by rewrite lookup_insert_ne.
    + intros _. unfold get_pointer. rewrite deref_Some. simpl.
      by rewrite lookup_insert_eq.
Qed.

(** Two handles made one after the other from one address, both with the
    acquired flag: both report it, and for a resource without a secret they
    are two blocks on the one address. *)
Lemma owned_pointer_raw_twice (T : element_type) (u : address) (s : heap) :
  let '(p, s1) := owned_pointer_raw T u true s in
  let '(p2, s2) := owned_pointer_raw T u true s1 in
  acquired p2 s2 = true ∧ acquired p s2 = true ∧
  (secret_of T u s = None →
   p2 ≠ p ∧ get_pointer p2 s2 = u ∧ get_pointer p s2 = u).
Proof.
  destruct (back_reference T u s) as [c|] eqn:Hb.
  - rewrite (owned_pointer_raw_attach _ _ _ _ _ Hb).
    set (s1 := with_blocks _ (with_blocks _ s)).
    assert (Hb1 : back_reference T u s1 = Some c).
    { apply back_reference_Some in Hb as (? & ? & ? & cell & Hc & ?).
      apply back_reference_Some. split; [done|]. split; [done|].
      split; [done|]. unfold s1. simpl. rewrite !lookup_alter_eq, Hc.
      simpl. eexists. split; [done|]. simpl. lia. }
    pose proof (owned_pointer_raw_acquired T u true s1) as Hacq.
    rewrite (owned_pointer_raw_attach _ _ _ _ _ Hb1) in Hacq |- *.
    destruct Hacq as (_ & _ & Hacq). split; [done|]. split; [done|].
    intros Hs. unfold back_reference in Hb. by rewrite Hs in Hb.
  - rewrite (owned_pointer_raw_fresh _ _ _ _ Hb).
    set (s1 := mk_heap _ _ _ _ _).
    destruct (secret_of T u s) as [w|] eqn:Hs.
    + assert (Hb1 : back_reference T u s1 = Some (next_block s)).
      { apply secret_of_Some in Hs as (? & ? & ?).
        apply back_reference_Some. split; [done|]. split; [done|].
        unfold s1. simpl. rewrite !lookup_insert_eq.
        split; [done|]. eexists. split; [done|]. simpl. lia. }
      pose proof (owned_pointer_raw_acquired T u true s1) as Hacq.
      rewrite (owned_pointer_raw_attach _ _ _ _ _ Hb1) in Hacq |- *.
      destruct Hacq as (_ & _ & Hacq). done.
    + assert (Hs1 : secret_of T u s1 = None) by exact Hs.
      assert (Hb1 : back_reference T u s1 = None)
        by (unfold back_reference; by rewrite Hs1).
      rewrite (owned_pointer_raw_fresh _ _ _ _ Hb1), Hs1.
      unfold acquired, get_pointer. rewrite !deref_Some. simpl.
      rewrite lookup_insert_eq.
      rewrite lookup_insert_ne by lia. rewrite lookup_insert_eq. simpl.
      split; [done|]. split; [done|]. intros _.
      split; [|done]. intros [= Heq]. lia.
Qed.

(** C6, as amended: the shared handle built from [link(u)] reports
    [acquired] at once, whatever was or was not called before; the token
    carries [u.get()], and building the handle frees no resource and runs no
    destructor, so [u] still holds its pointer and its resource.  When the
    constructor does not attach to an older block, the handle points at the
    resource of [u].  The token has no copy constructor and no assignment,
    and its move constructor and the constructor of the handle leave it as
    it is: the token moved from still carries the pointer, and a second
    handle built from it reports [acquired] as the first does, on a block of
    its own when the resource has no secret. *)
Theorem C6_link_is_acquired (T : element_type) (u : address) (s : heap) :
  let token := link u in
  let '(p, s1) := owned_pointer_from_link T token s in
  acquired p s1 = true ∧
  link_ptr token = u ∧
  (∀ a, is_Some (objects s1 !! a) ↔ is_Some (objects s !! a)) ∧
  delete_events s1 = delete_events s ∧
  (back_reference T u s = None → get_pointer p s1 = u) ∧
  unique_ptr_link_has copy_construction = false ∧
  unique_ptr_link_has copy_assigning = false ∧
  unique_ptr_link_has move_assigning = false ∧
  unique_ptr_link_has move_construction = true ∧
  let '(moved, rest) := unique_ptr_link_move token in
  link_ptr moved = u ∧ link_ptr rest = u ∧
  let '(p2, s2) := owned_pointer_from_link T rest s1 in
  acquired p2 s2 = true ∧ acquired p s2 = true ∧
  (secret_of T u s = None →
   p2 ≠ p ∧ get_pointer p2 s2 = u ∧ get_pointer p s2 = u).
Proof.
  cbv zeta. unfold owned_pointer_from_link, unique_ptr_link_move, link.
  cbn [link_ptr].
  pose proof (owned_pointer_raw_link T u s) as H1.
  pose proof (owned_pointer_raw_twice T u s) as H2.
  destruct (owned_pointer_raw T u true s) as [p s1].
  destruct (owned_pointer_raw T u true s1) as [p2 s2].
  destruct H1 as (? & ? & ? & ?). destruct H2 as (? & ? & ?).
  repeat match goal with |- _ ∧ _ => split end; done.
Qed.

(** The claim as first written has the token movable once.  The token is
    moved twice here, and three handles are built: from the two tokens moved
    to and from what the second move left.  Each handle reports [acquired]
    and the address the token carried. *)
Lemma C6_counterexample :
  let s := run empty_heap [call_new non_polymorphic] in
  let '(t1, rest1) := unique_ptr_link_move (link 1) in
  let '(t2, rest2) := unique_ptr_link_move rest1 in
  let '(p1, s1) := owned_pointer_from_link non_polymorphic t1 s in
  let '(p2, s2) := owned_pointer_from_link non_polymorphic t2 s1 in
  let '(p3, s3) := owned_pointer_from_link non_polymorphic rest2 s2 in
  link_ptr rest1 = 1 ∧ link_ptr rest2 = 1 ∧
  p1 = Some 0 ∧ p2 = Some 1 ∧ p3 = Some 2 ∧
  acquired p1 s3 = true ∧ acquired p2 s3 = true ∧ acquired p3 s3 = true ∧
  get p1 s3 = returns 1 ∧ get p2 s3 = returns 1 ∧ get p3 s3 = returns 1 ∧
  objects s3 !! 1 = Some plain_object.
Proof. vm_compute. done. Qed.

(** ** make_owned *)

Lemma make_owned_eq (T : element_type) (s : heap) :
  make_owned T s =
    (Some (next_block s),
     {| blocks :=
          <[next_block s :=
              mk_cell (mk_control_block (next_object s) false false) 1]>
            (blocks s);
        objects :=
          <[next_object s :=
              if has_virtual_destructor T && negb (next_object s =? nullptr)
              then destruction_notify_object (Some (next_block s))
              else if has_virtual_destructor T
                   then destruction_notify_object None
                   else plain_object]> (objects s);
        next_block := N.succ (next_block s);
        next_object := N.succ (next_object s);
        delete_events := delete_events s |}).
Proof.
  unfold make_owned, owned_pointer_from_unique_ptr. simpl.
  set (s0 := {| blocks := blocks s |}).
  assert (Hs : secret_of T (next_object s) s0 =
               if has_virtual_destructor T && negb (next_object s =? nullptr)
               then Some None else None).
  { unfold secret_of. simpl. rewrite lookup_insert_eq.
    destruct T; simpl; try done; by destruct (next_object s =? nullptr). }
  rewrite owned_pointer_raw_fresh; unfold back_reference; rewrite Hs.
  - simpl. f_equal. f_equal.
    destruct (has_virtual_destructor T); simpl; [|done].
    destruct (next_object s =? nullptr); simpl; [done|].
    apply insert_insert_eq.
  - by destruct (_ && _).
Qed.

Lemma get_make_owned (T : element_type) (s : heap) :
  get (fst (make_owned T s)) (snd (make_owned T s)) = returns (next_object s).
Proof.
  rewrite make_owned_eq. cbn [fst snd].
  unfold get, throw_if_is_destroyed_and_has_virtual_dtor, expired,
    get_pointer.
  rewrite deref_Some. simpl. by rewrite lookup_insert_eq.
Qed.

(** C7: right after [make_owned], [unique_ptr] returns without an exception
    an exclusive handle on the address [get] reports, which is the address of
    the resource just allocated. *)
Theorem C7_make_owned_unique_ptr_round_trip (T : element_type) (s : heap) :
  let '(p, s1) := make_owned T s in
  let '(u, s2) := unique_ptr p s1 in
  u = returns (next_object s) ∧
  get p s1 = returns (next_object s) ∧
  get p s2 = returns (next_object s) ∧
  acquired p s1 = false ∧
  objects s2 = objects s1.
Proof.
  rewrite make_owned_eq.
  set (s1 := {| blocks := _ |}).
  assert (Hd : deref (Some (next_block s)) s1 =
               Some (mk_control_block (next_object s) false false)).
  { rewrite deref_Some. simpl. by rewrite lookup_insert_eq. }
  assert (Hg : get (Some (next_block s)) s1 = returns (next_object s)).
  { unfold get, throw_if_is_destroyed_and_has_virtual_dtor, expired,
      get_pointer. by rewrite Hd. }
  unfold unique_ptr.
  assert (Hp : get_pointer (Some (next_block s)) s1 = next_object s)
    by (unfold get_pointer; by rewrite Hd).
  assert (Ha : acquired (Some (next_block s)) s1 = false)
    by (unfold acquired; by rewrite Hd).
  rewrite Hp, Ha.
  destruct (N.eqb_spec (next_object s) nullptr) as [H0|H0]; cbn [negb].
  - rewrite Hg. by rewrite H0.
  - rewrite get_pointer_store_acquired, Hp.
    repeat split; try done.
    unfold get, throw_if_is_destroyed_and_has_virtual_dtor.
    rewrite expired_store_acquired, get_pointer_store_acquired, Hp.
    unfold expired. by rewrite Hd.
Qed.

(** ** The hand-off *)

(** C1, as amended: [unique_ptr] on a handle whose resource pointer is null
    returns an empty exclusive handle and leaves the heap as it is, also when
    the acquired flag is set; on a non-null resource whose block is already
    acquired it throws [unique_ptr_already_acquired] and leaves the heap as it
    is; on a non-null resource not yet acquired it sets the flag and returns
    the same raw address.  In particular, when the resource pointer is not
    null and the block is not acquired, of two calls made through a handle and
    its copy, in any order, the first returns the address and the second
    throws, leaving the heap of the first. *)
Theorem C1_unique_ptr_hand_off (this : shared_ptr) (s : heap) :
  (get_pointer this s = nullptr → unique_ptr this s = (returns nullptr, s)) ∧
  (get_pointer this s ≠ nullptr → acquired this s = true →
   unique_ptr this s = (throws unique_ptr_already_acquired, s)) ∧
  (get_pointer this s ≠ nullptr → acquired this s = false →
   unique_ptr this s =
     (returns (get_pointer this s), store_acquired this true s) ∧
   acquired this (store_acquired this true s) = true ∧
   get_pointer this (store_acquired this true s) = get_pointer this s ∧
   ∀ other s0, owned_pointer_copy this s = (other, s0) →
     ∀ first second, first ∈ [this; other] → second ∈ [this; other] →
       ∃ s1, unique_ptr first s0 = (returns (get_pointer this s), s1) ∧
             acquired this s1 = true ∧ acquired other s1 = true ∧
             unique_ptr second s1 = (throws unique_ptr_already_acquired, s1)).
Proof.
  assert (Hfirst : ∀ s', get_pointer this s' ≠ nullptr →
            acquired this s' = false →
            unique_ptr this s' =
              (returns (get_pointer this s'), store_acquired this true s')).
  { intros s' Hp Ha. unfold unique_ptr.
    apply N.eqb_neq in Hp. rewrite Hp, Ha. cbn [negb].
    by rewrite get_pointer_store_acquired. }
  assert (Hsecond : ∀ s', get_pointer this s' ≠ nullptr →
            acquired this s' = true →
            unique_ptr this s' = (throws unique_ptr_already_acquired, s')).
  { intros s' Hp Ha. unfold unique_ptr.
    apply N.eqb_neq in Hp. by rewrite Hp, Ha. }
  split; [|split].
  - intros Hp. unfold unique_ptr. by rewrite Hp.
  - apply Hsecond.
  - intros Hp Ha. split; [by apply Hfirst|].
    pose proof (get_pointer_nonnull_deref _ _ Hp) as Hd.
    split; [by apply acquired_store_acquired|].
    split; [apply get_pointer_store_acquired|].
    intros other s0 Hcopy first second Hf Hs.
    assert (other = this ∧ get_pointer this s0 = get_pointer this s ∧
            acquired this s0 = false) as (-> & Hp0 & Ha0).
    { unfold owned_pointer_copy, copy in Hcopy.
      destruct this as [c|]; [|by unfold get_pointer in Hp].
      simplify_eq.
      unfold get_pointer, acquired in *. rewrite !deref_Some in *. simpl.
      rewrite lookup_alter_eq. by destruct (blocks s !! c). }
    assert (first = this) as ->
      by (rewrite !elem_of_cons, elem_of_nil in Hf; tauto).
    assert (second = this) as ->
      by (rewrite !elem_of_cons, elem_of_nil in Hs; tauto).
    exists (store_acquired this true s0).
    rewrite Hfirst, Hp0 by congruence.
    assert (acquired this (store_acquired this true s0) = true) as Ha1.
    { apply acquired_store_acquired, get_pointer_nonnull_deref. congruence. }
    repeat split; try done.
    apply Hsecond; [|done]. rewrite get_pointer_store_acquired. congruence.
Qed.

(** The third case at a computed heap: the handle [make_owned<int>()]
    returns, called twice. *)
Lemma C1_unique_ptr_hand_off_witness :
  let s := snd (make_owned non_polymorphic empty_heap) in
  get_pointer (Some 0) s ≠ nullptr ∧ acquired (Some 0) s = false ∧
  ∃ s1, unique_ptr (Some 0) (snd (owned_pointer_copy (Some 0) s)) =
          (returns 1, s1) ∧
        unique_ptr (Some 0) s1 = (throws unique_ptr_already_acquired, s1).
Proof.
  cbv zeta.
  assert (Hp : get_pointer (Some 0)
                 (snd (make_owned non_polymorphic empty_heap)) ≠ nullptr)
    by (vm_compute; discriminate).
  assert (Ha : acquired (Some 0)
                 (snd (make_owned non_polymorphic empty_heap)) = false)
    by reflexivity.
  split; [exact Hp|]. split; [exact Ha|].
  destruct (C1_unique_ptr_hand_off (Some 0)
              (snd (make_owned non_polymorphic empty_heap)))
    as (_ & _ & H).
  destruct (H Hp Ha) as (_ & _ & _ & Htwice).
  destruct (Htwice (Some 0)
              (snd (owned_pointer_copy (Some 0)
                      (snd (make_owned non_polymorphic empty_heap))))
              eq_refl (Some 0) (Some 0))
    as (s1 & H1 & _ & _ & H2); [by left..|].
  exists s1. split; [exact H1 | exact H2].
Defined.

(** The claim as first written fails on a block whose resource pointer is
    null: the handle built from [link(u)] of an empty [u] has the acquired
    flag set, and still any number of [unique_ptr] calls through it and its
    copies return an empty exclusive handle; none throws. *)
Lemma C1_counterexample :
  let '(p, s) :=
    owned_pointer_from_link non_polymorphic (link nullptr) empty_heap in
  let '(q, s0) := owned_pointer_copy p s in
  acquired p s0 = true ∧
  unique_ptr p s0 = (returns nullptr, s0) ∧
  unique_ptr q s0 = (returns nullptr, s0) ∧
  fst (unique_ptr q (snd (unique_ptr p s0))) ≠
    throws unique_ptr_already_acquired.
Proof. vm_compute. repeat split; discriminate. Qed.

(** ** What destruction does to the heap *)

Lemma lookup_mark_deleted (h : shared_ptr) (m : gmap N shared_cell) (i : N) :
  mark_deleted h m !! i =
    if decide (h = Some i) then set_tuple (set_deleted true) <$> m !! i
    else m !! i.
Proof.
  destruct h as [c|]; simpl.
  - rewrite lookup_alter. repeat case_decide; by simplify_eq.
  - done.
Qed.

Lemma delete_object_eq (p : address) (s : heap) :
  delete_object p s =
    {| blocks := mark_deleted (notified p s) (blocks s);
       objects := delete p (objects s);
       next_block := next_block s;
       next_object := next_object s;
       delete_events := fired p s ++ delete_events s |}.
Proof.
  unfold delete_object, delete_event, notified, fired.
  destruct (objects s !! p) as [[|w]|] eqn:Hp; simpl.
  - by destruct s.
  - change (lockable w (mk_heap _ _ _ _ _)) with (lockable w s).
    by destruct (lockable w s).
  - rewrite delete_id by done. by destruct s.
Qed.

Lemma release_eq (c : N) (s : heap) :
  release (Some c) s =
    match blocks s !! c with
    | None => s
    | Some cell =>
        if decide (use_count cell ≤ 1)%nat then
          with_blocks (delete c)
            (if negb (_acquired (tuple cell))
             then delete_object (_ptr (tuple cell)) s else s)
        else with_blocks (alter (set_use_count pred) c) s
    end.
Proof.
  unfold release, deleter.
  destruct (blocks s !! c) as [cell|] eqn:Hc; [|done].
  case_decide as Hn; [|done].
  simpl. rewrite lookup_alter_eq, Hc. simpl.
  destruct (_acquired (tuple cell)); simpl.
  - unfold with_blocks. simpl. by rewrite delete_alter_eq.
  - set (s1 := with_blocks (alter (set_use_count pred) c) s).
    assert (Hn1 : ∀ i, c ≠ i →
              notified (_ptr (tuple cell)) s1 = Some i ↔
              notified (_ptr (tuple cell)) s = Some i).
    { intros i Hi. unfold notified. simpl.
      destruct (objects s !! _) as [[|w]|]; try done.
      rewrite !lockable_Some. simpl. by rewrite lookup_alter_ne. }
    rewrite !delete_object_eq. unfold with_blocks. simpl. f_equal.
    apply map_eq. intros i. destruct (decide (c = i)) as [->|Hi].
    { by rewrite !lookup_delete_eq. }
    rewrite !lookup_delete_ne, !lookup_mark_deleted by done.
    rewrite lookup_alter_ne by done.
    specialize (Hn1 i Hi).
    destruct (decide (notified _ s1 = Some i)) as [H1|H1].
    + by rewrite decide_True by by apply Hn1.
    + by rewrite decide_False by by rewrite <- Hn1.
Qed.

(** ** The control block and its deleter *)

(** C9: a new control block is neither acquired nor deleted.  When the
    handle holding the last reference to a block is destroyed, the block is
    freed; the resource is freed with it exactly when the block is not
    acquired, by [delete] of its pointer, and an acquired block leaves every
    resource and every other block as they were.  A handle that is not the
    last only gives its reference back. *)
Theorem C9_deleter_frees_unacquired_resource
    (c : N) (cell : shared_cell) (s : heap) :
  blocks s !! c = Some cell →
  (∀ p, new_control_block p = mk_control_block p false false) ∧
  (∀ p, blocks (snd (alloc_block p s)) !! fst (alloc_block p s) =
        Some (mk_cell (mk_control_block p false false) 1)) ∧
  (use_count cell = 1%nat →
   blocks (release (Some c) s) !! c = None ∧
   (_acquired (tuple cell) = false →
    release (Some c) s =
      with_blocks (delete c) (delete_object (_ptr (tuple cell)) s) ∧
    objects (release (Some c) s) = delete (_ptr (tuple cell)) (objects s) ∧
    objects (release (Some c) s) !! _ptr (tuple cell) = None) ∧
   (_acquired (tuple cell) = true →
    release (Some c) s = with_blocks (delete c) s ∧
    objects (release (Some c) s) = objects s ∧
    delete_events (release (Some c) s) = delete_events s) ∧
   (is_Some (objects s !! _ptr (tuple cell)) →
    (objects (release (Some c) s) !! _ptr (tuple cell) = None ↔
     _acquired (tuple cell) = false))) ∧
  ((1 < use_count cell)%nat →
   release (Some c) s = with_blocks (alter (set_use_count pred) c) s ∧
   objects (release (Some c) s) = objects s ∧
   blocks (release (Some c) s) !! c =
     Some (mk_cell (tuple cell) (pred (use_count cell)))).
Proof.
  intros Hc. split; [done|]. split.
  { intros p. simpl. by rewrite lookup_insert_eq. }
  rewrite release_eq, Hc. split.
  - intros H1. rewrite decide_True by lia.
    split; [simpl; apply lookup_delete_eq|].
    destruct (_acquired (tuple cell)); simpl.
    + repeat split; try done. intros Hgone.
      destruct H as [o Ho]. congruence.
    + rewrite delete_object_eq. simpl.
      repeat split; try done; intros; apply lookup_delete_eq.
  - intros H1. rewrite decide_False by lia. simpl.
    repeat split. by rewrite lookup_alter_eq, Hc.
Qed.

(** The deleter of the block [make_owned<int>()] made, not acquired. *)
Lemma C9_deleter_frees_unacquired_resource_witness :
  let s := snd (make_owned non_polymorphic empty_heap) in
  blocks s !! 0 = Some (mk_cell (mk_control_block 1 false false) 1) ∧
  blocks (release (Some 0) s) !! 0 = None ∧
  objects (release (Some 0) s) !! 1 = None.
Proof.
  cbv zeta.
  assert (Hc : blocks (snd (make_owned non_polymorphic empty_heap)) !! 0 =
               Some (mk_cell (mk_control_block 1 false false) 1))
    by reflexivity.
  split; [exact Hc|].
  destruct (C9_deleter_frees_unacquired_resource _ _ _ Hc)
    as (_ & _ & Hlast & _).
  destruct (Hlast eq_refl) as (Hfreed & Hres & _).
  split; [exact Hfreed|].
  destruct (Hres eq_refl) as (_ & _ & Hgone). exact Hgone.
Defined.

(** ** Invariants of the free store *)

Lemma heap_ok_empty : heap_ok empty_heap.
Proof.
  split; simpl.
  - intros c cell. by rewrite lookup_empty.
  - intros a o. by rewrite lookup_empty.
  - unfold nullptr. lia.
  - intros a Ha. by apply elem_of_nil in Ha.
  - constructor.
Qed.

Lemma heap_ok_alter (f : shared_cell → shared_cell) (c : N) (s : heap) :
  (∀ cell, blocks s !! c = Some cell → (0 < use_count (f cell))%nat) →
  heap_ok s → heap_ok (with_blocks (alter f c) s).
Proof.
  intros Hf [Hb Ho Hn He Hd]. split; simpl; try done.
  intros c' cell'. rewrite lookup_alter. case_decide as Hc; [subst c'|by eauto].
  destruct (blocks s !! c) as [cell|] eqn:Hcell; [|done].
  intros [= <-]. split; [by eapply Hb | by apply Hf].
Qed.

Lemma heap_ok_store_acquired (this : shared_ptr) (b : bool) (s : heap) :
  heap_ok s → heap_ok (store_acquired this b s).
Proof.
  intros Hs. destruct this as [c|]; [|done].
  apply heap_ok_alter; [|done].
  intros cell Hc. simpl. by eapply blocks_allocated.
Qed.

Lemma heap_ok_copy (p : shared_ptr) (s : heap) :
  heap_ok s → heap_ok (snd (copy p s)).
Proof.
  intros Hs. destruct p as [c|]; [|done].
  apply heap_ok_alter; [|done]. simpl. lia.
Qed.

Lemma heap_ok_delete_block (c : N) (s : heap) :
  heap_ok s → heap_ok (with_blocks (delete c) s).
Proof.
  intros [Hb Ho Hn He Hd]. split; simpl; try done.
  intros c' cell' [_ Hc]%lookup_delete_Some. eauto.
Qed.

Lemma heap_ok_delete_object (p : address) (s : heap) :
  heap_ok s → heap_ok (delete_object p s).
Proof.
  intros [Hb Ho Hn He Hd]. rewrite delete_object_eq. split; simpl; try done.
  - intros c cell'. rewrite lookup_mark_deleted.
    case_decide; [|by eauto].
    destruct (blocks s !! c) as [cell|] eqn:Hcell; [|done].
    intros [= <-]. simpl. by eapply Hb.
  - intros a o [_ Ha]%lookup_delete_Some. eauto.
  - intros a [Ha|Ha]%elem_of_app.
    + unfold fired in Ha.
      destruct (objects s !! p) as [[|w]|] eqn:Hp;
        try by apply elem_of_nil in Ha.
      apply list_elem_of_singleton in Ha as ->.
      split; [by eapply Ho | apply lookup_delete_eq].
    + destruct (He a Ha). split; [done|]. by apply lookup_delete_None; right.
  - apply NoDup_app. split; [|split; [|done]].
    + unfold fired. destruct (objects s !! p) as [[|w]|];
        try apply NoDup_nil_2. apply NoDup_singleton.
    + intros a Ha Ha'. unfold fired in Ha.
      destruct (objects s !! p) as [[|w]|] eqn:Hp;
        try by apply elem_of_nil in Ha.
      apply list_elem_of_singleton in Ha as ->.
      destruct (He p Ha'). congruence.
Qed.

Lemma heap_ok_release (h : shared_ptr) (s : heap) :
  heap_ok s → heap_ok (release h s).
Proof.
  intros Hs. destruct h as [c|]; [|done]. rewrite release_eq.
  destruct (blocks s !! c) as [cell|] eqn:Hc; [|done].
  case_decide.
  - apply heap_ok_delete_block.
    destruct (negb _); [by apply heap_ok_delete_object | done].
  - apply heap_ok_alter; [|done]. intros ? ?. simplify_eq. simpl. lia.
Qed.

Lemma heap_ok_alloc_object (o : object) (s : heap) :
  heap_ok s → heap_ok (snd (alloc_object o s)).
Proof.
  intros [Hb Ho Hn He Hd]. split; simpl; try done.
  - intros a o'. rewrite lookup_insert. case_decide.
    + intros _. subst a. lia.
    + intros Ha%Ho. lia.
  - lia.
  - intros a Ha. destruct (He a Ha) as [Hlt Hnone]. split; [lia|].
    rewrite lookup_insert_ne; [done | lia].
Qed.

Lemma heap_ok_owned_pointer_raw (T : element_type) (p : address) (a : bool)
    (s : heap) :
  heap_ok s → heap_ok (snd (owned_pointer_raw T p a s)).
Proof.
  intros Hs. destruct (back_reference T p s) as [c|] eqn:Hb.
  - rewrite (owned_pointer_raw_attach _ _ _ _ _ Hb). simpl.
    apply (heap_ok_store_acquired (Some c)).
    by apply (heap_ok_copy (Some c)).
  - rewrite (owned_pointer_raw_fresh _ _ _ _ Hb). simpl.
    destruct Hs as [Hbl Ho Hn He Hd]. split; simpl; try done.
    + intros c cell. rewrite lookup_insert. case_decide.
      * intros [= <-]. subst c. simpl. lia.
      * intros [? ?]%Hbl. lia.
    + destruct (secret_of T p s) as [w|] eqn:Hw; [|done].
      apply secret_of_Some in Hw as (_ & _ & Hp).
      intros a' o. rewrite lookup_insert. case_decide; [|by eauto].
      subst a'. intros _. by eapply Ho.
    + destruct (secret_of T p s) as [w|] eqn:Hw; [|done].
      apply secret_of_Some in Hw as (_ & _ & Hp).
      intros a' Ha'. destruct (He a' Ha') as [? Hnone]. split; [done|].
      rewrite lookup_insert_ne; [done | congruence].
Qed.

Lemma heap_ok_step (s : heap) (o : operation) : heap_ok s → heap_ok (step s o).
Proof.
  intros Hs. destruct o as [T|T|T u|T u|p|p|p|p|u]; simpl.
  - unfold make_owned.
    destruct (alloc_object _ s) as [a s1] eqn:Ha.
    apply heap_ok_owned_pointer_raw.
    change s1 with (snd (a, s1)). rewrite <- Ha. by apply heap_ok_alloc_object.
  - by apply (heap_ok_alloc_object plain_object).
  - by apply heap_ok_owned_pointer_raw.
  - by apply heap_ok_owned_pointer_raw.
  - by apply heap_ok_copy.
  - unfold unique_ptr. destruct (negb _); [|done].
    destruct (negb _); [|done]. by apply heap_ok_store_acquired.
  - done.
  - by apply heap_ok_release.
  - by apply heap_ok_delete_object.
Qed.

Lemma heap_ok_run (os : list operation) (s : heap) :
  heap_ok s → heap_ok (run s os).
Proof.
  revert s. induction os as [|o os IH]; intros s Hs; [done|].
  apply IH. by apply heap_ok_step.
Qed.

(** ** How a block changes over time *)

Section evolves.
Variable reset : N → Prop.

Lemma evolves_refl (s : heap) : evolves reset s s.
Proof. split; [lia|]. intros c cell Hc _. exists cell. by repeat split. Qed.

Lemma evolves_trans (s1 s2 s3 : heap) :
  evolves reset s1 s2 → evolves reset s2 s3 → evolves reset s1 s3.
Proof.
  intros [Hn1 H1] [Hn2 H2]. split; [lia|].
  intros c cell3 Hc3 Hc.
  destruct (H2 c cell3 Hc3) as (cell2 & Hc2 & [Hp2 Hd2] & Ha2); [lia|].
  destruct (H1 c cell2 Hc2 Hc) as (cell1 & Hc1 & [Hp1 Hd1] & Ha1).
  exists cell1. repeat split; [done | congruence | tauto | tauto].
Qed.

Lemma evolves_same_blocks (s s' : heap) :
  blocks s' = blocks s → next_block s' = next_block s → evolves reset s s'.
Proof.
  intros Hb Hn. split; [lia|]. rewrite Hb.
  intros c cell Hc _. exists cell. by repeat split.
Qed.

Lemma evolves_alter (f : shared_cell → shared_cell) (c : N) (s : heap) :
  (∀ cell, blocks s !! c = Some cell →
     ages (tuple cell) (tuple (f cell)) ∧
     (¬ reset c → _acquired (tuple cell) = true →
      _acquired (tuple (f cell)) = true)) →
  evolves reset s (with_blocks (alter f c) s).
Proof.
  intros Hf. split; [simpl; lia|]. simpl. intros c' cell' Hc' _.
  rewrite lookup_alter in Hc'. case_decide; [subst c'|].
  - destruct (blocks s !! c) as [cell|] eqn:Hc; [|done].
    simplify_eq/=. exists cell. split; [done|]. by apply Hf.
  - exists cell'. by repeat split.
Qed.

Lemma evolves_delete_block (c : N) (s : heap) :
  evolves reset s (with_blocks (delete c) s).
Proof.
  split; [simpl; lia|]. simpl.
  intros c' cell' [_ Hc']%lookup_delete_Some _.
  exists cell'. by repeat split.
Qed.

Lemma evolves_insert_fresh (cell : shared_cell) (s s' : heap) :
  blocks s' = <[next_block s := cell]> (blocks s) →
  next_block s' = N.succ (next_block s) →
  evolves reset s s'.
Proof.
  intros Hb Hn. split; [lia|]. rewrite Hb. intros c cell' Hc' Hc.
  rewrite lookup_insert_ne in Hc' by lia.
  exists cell'. by repeat split.
Qed.

Lemma evolves_delete_object (p : address) (s : heap) :
  evolves reset s (delete_object p s).
Proof.
  rewrite delete_object_eq. split; [simpl; lia|]. simpl.
  intros c cell' Hc' _. rewrite lookup_mark_deleted in Hc'.
  case_decide.
  - destruct (blocks s !! c) as [cell|]; [|done].
    simplify_eq/=. exists cell. by repeat split.
  - exists cell'. by repeat split.
Qed.

Lemma evolves_release (h : shared_ptr) (s : heap) :
  evolves reset s (release h s).
Proof.
  destruct h as [c|]; [|apply evolves_refl]. rewrite release_eq.
  destruct (blocks s !! c) as [cell|] eqn:Hc; [|apply evolves_refl].
  case_decide.
  - eapply evolves_trans; [|apply evolves_delete_block].
    destruct (negb _); [apply evolves_delete_object | apply evolves_refl].
  - apply evolves_alter. intros. by repeat split.
Qed.

Lemma evolves_copy (p : shared_ptr) (s : heap) :
  evolves reset s (snd (copy p s)).
Proof.
  destruct p as [c|]; [|apply evolves_refl].
  apply evolves_alter. intros. by repeat split.
Qed.

Lemma evolves_unique_ptr (p : shared_ptr) (s : heap) :
  evolves reset s (snd (unique_ptr p s)).
Proof.
  unfold unique_ptr. destruct (negb _); [|apply evolves_refl].
  destruct (negb _); [|apply evolves_refl].
  destruct p as [c|]; [|apply evolves_refl].
  apply evolves_alter. intros. by repeat split.
Qed.

Lemma evolves_owned_pointer_raw (T : element_type) (p : address)
    (a : bool) (s : heap) :
  (∀ c, a = false → back_reference T p s = Some c → reset c) →
  evolves reset s (snd (owned_pointer_raw T p a s)).
Proof.
  intros Hreset. destruct (back_reference T p s) as [c|] eqn:Hb.
  - rewrite (owned_pointer_raw_attach _ _ _ _ _ Hb). simpl.
    eapply evolves_trans; apply evolves_alter;
      intros; repeat split; try done.
    simpl. intros Hc _. destruct a; [done|].
    exfalso. apply Hc. by apply Hreset.
  - rewrite (owned_pointer_raw_fresh _ _ _ _ Hb).
    by eapply evolves_insert_fresh.
Qed.
End evolves.

Lemma evolves_weaken (reset reset' : N → Prop) (s s' : heap) :
  (∀ c, reset c → reset' c) → evolves reset s s' → evolves reset' s s'.
Proof.
  intros Hr [Hn H]. split; [done|]. intros c cell' Hc' Hc.
  destruct (H c cell' Hc' Hc) as (cell & ? & ? & Ha).
  exists cell. split; [done|]. split; [done|].
  intros Hnr. apply Ha. auto.
Qed.

Lemma evolves_step (s : heap) (o : operation) :
  evolves (rewrapped s o) s (step s o).
Proof.
  destruct o as [T|T|T u|T u|p|p|p|p|u]; simpl.
  - unfold make_owned, owned_pointer_from_unique_ptr.
    destruct (alloc_object _ s) as [a s1] eqn:Ha.
    eapply evolves_trans; [|apply evolves_owned_pointer_raw].
    + apply evolves_same_blocks; by injection Ha as <- <-.
    + intros c _ Hb. injection Ha as <- <-. revert Hb.
      unfold back_reference, secret_of. simpl. rewrite lookup_insert_eq.
      destruct (is_polymorphic T && _); [|done].
      by destruct (has_virtual_destructor T).
  - by apply evolves_same_blocks.
  - by apply evolves_owned_pointer_raw.
  - by apply evolves_owned_pointer_raw.
  - apply evolves_copy.
  - apply evolves_unique_ptr.
  - apply evolves_refl.
  - apply evolves_release.
  - apply evolves_delete_object.
Qed.

Lemma evolves_run (os : list operation) (s : heap) :
  evolves (λ _, True) s (run s os).
Proof.
  revert s. induction os as [|o os IH]; intros s; [apply evolves_refl|].
  eapply evolves_trans; [|apply IH].
  eapply evolves_weaken; [|apply evolves_step]. done.
Qed.

Lemma evolves_run_never_rewrapped (c : N) (os : list operation) (s : heap) :
  never_rewrapped c s os → evolves (λ c', c' ≠ c) s (run s os).
Proof.
  revert s. induction os as [|o os IH]; intros s; [intros; apply evolves_refl|].
  intros [Hn Hos]. eapply evolves_trans; [|by apply IH].
  eapply evolves_weaken; [|apply evolves_step].
  intros c' Hc' ->. contradiction.
Qed.

Lemma never_rewrapped_without_from_unique_ptr (c : N) (os : list operation)
    (s : heap) :
  (∀ T u, call_from_unique_ptr T u ∉ os) → never_rewrapped c s os.
Proof.
  revert s. induction os as [|o os IH]; intros s Hos; [done|]. split.
  - destruct o as [| |T u| | | | | |]; simpl; try tauto.
    intros _. destruct (Hos T u). by left.
  - apply IH. intros T u Hin. destruct (Hos T u). by right.
Qed.

(** C2, as amended: along every sequence of calls of the public interface,
    a control block keeps its identity and its resource pointer, and its
    deleted flag, once true, stays true for as long as the block lives.  Its
    acquired flag, once true, stays true as long as no shared handle is
    constructed from a unique_ptr on a resource whose back-reference resolves
    to this block; that constructor is the one call that takes the flag from
    true back to false. *)
Theorem C2_flags_never_revert
    (before after : list operation) (c : N) (cell cell' : shared_cell) :
  let s := run empty_heap before in
  let s' := run s after in
  blocks s !! c = Some cell →
  blocks s' !! c = Some cell' →
  _ptr (tuple cell') = _ptr (tuple cell) ∧
  (_deleted (tuple cell) = true → _deleted (tuple cell') = true) ∧
  (never_rewrapped c s after →
   _acquired (tuple cell) = true → _acquired (tuple cell') = true) ∧
  ((∀ T u, call_from_unique_ptr T u ∉ after) →
   _acquired (tuple cell) = true → _acquired (tuple cell') = true) ∧
  (∀ o, after = [o] →
   _acquired (tuple cell) = true → _acquired (tuple cell') = false →
   ∃ T u, o = call_from_unique_ptr T u ∧ back_reference T u s = Some c) ∧
  (∀ T u, after = [call_from_unique_ptr T u] →
   back_reference T u s = Some c → _acquired (tuple cell') = false).
Proof.
  intros s s' Hc Hc'.
  assert (Hok : heap_ok s)
    by (unfold s; apply heap_ok_run; apply heap_ok_empty).
  pose proof (blocks_allocated _ Hok _ _ Hc) as [Hlt _].
  assert (Hkept : never_rewrapped c s after →
            _acquired (tuple cell) = true → _acquired (tuple cell') = true).
  { intros Hnever.
    destruct (evolves_run_never_rewrapped c after s Hnever) as [_ H].
    destruct (H c cell' Hc' Hlt) as (cell0 & Hc0 & _ & Ha).
    assert (cell0 = cell) as -> by congruence.
    apply Ha. intros Hne. by apply Hne. }
  destruct (evolves_run after s) as [_ H].
  destruct (H c cell' Hc' Hlt) as (cell0 & Hc0 & [Hp Hd] & _).
  assert (cell0 = cell) as -> by congruence.
  split; [done|]. split; [done|]. split; [done|].
  split; [|split].
  - intros Hnone. by apply Hkept, never_rewrapped_without_from_unique_ptr.
  - intros o -> Ha Ha'.
    destruct o as [| |T u| | | | | |];
      try (rewrite Hkept in Ha'; [done | by split; [simpl; tauto|] | done]).
    destruct (decide (back_reference T u s = Some c)) as [Hb|Hb]; [eauto|].
    rewrite Hkept in Ha'; [done | by split | done].
  - intros T u -> Hb. revert Hc'. unfold s'. simpl.
    unfold owned_pointer_from_unique_ptr.
    rewrite (owned_pointer_raw_attach _ _ _ _ _ Hb). simpl.
    rewrite !lookup_alter_eq. destruct (blocks s !! c); [|done].
    by intros [= <-].
Qed.

(** Block 0 of [make_owned] over a type with a virtual destructor, acquired,
    then copied, its resource deleted, its address linked once more and one
    handle destroyed: both flags are still set. *)
Lemma C2_flags_never_revert_witness :
  let before := [call_make_owned virtual_destructor; call_unique_ptr (Some 0)] in
  let after := [call_copy (Some 0); call_delete 1;
                call_from_link virtual_destructor 1; call_destroy (Some 0)] in
  blocks (run empty_heap before) !! 0 =
    Some (mk_cell (mk_control_block 1 true false) 1) ∧
  blocks (run (run empty_heap before) after) !! 0 =
    Some (mk_cell (mk_control_block 1 true true) 1) ∧
  (_deleted (mk_control_block 1 true false) = true →
   _deleted (mk_control_block 1 true true) = true) ∧
  (_acquired (mk_control_block 1 true false) = true →
   _acquired (mk_control_block 1 true true) = true).
Proof.
  cbv zeta.
  pose proof (C2_flags_never_revert
    [call_make_owned virtual_destructor; call_unique_ptr (Some 0)]
    [call_copy (Some 0); call_delete 1;
     call_from_link virtual_destructor 1; call_destroy (Some 0)]
    0 (mk_cell (mk_control_block 1 true false) 1)
    (mk_cell (mk_control_block 1 true true) 1)) as H.
  cbv zeta in H.
  assert (H1 : blocks (run empty_heap
                 [call_make_owned virtual_destructor;
                  call_unique_ptr (Some 0)]) !! 0 =
               Some (mk_cell (mk_control_block 1 true false) 1))
    by (vm_compute; reflexivity).
  assert (H2 : blocks (run (run empty_heap
                 [call_make_owned virtual_destructor;
                  call_unique_ptr (Some 0)])
                 [call_copy (Some 0); call_delete 1;
                  call_from_link virtual_destructor 1;
                  call_destroy (Some 0)]) !! 0 =
               Some (mk_cell (mk_control_block 1 true true) 1))
    by (vm_compute; reflexivity).
  destruct (H H1 H2) as (_ & Hd & _ & Ha & _ & _).
  split; [exact H1|]. split; [exact H2|]. split; [exact Hd|].
  apply Ha. intros T u Hin.
  repeat (apply elem_of_cons in Hin as [Hin|Hin]; [discriminate|]).
  by apply elem_of_nil in Hin.
Defined.

(** The acquired flag does revert: [auto p = make_owned<X>()] for [X] with a
    virtual destructor, [auto u = p.unique_ptr()], then
    [owned_pointer<X> q(std::move(u))].  The last constructor finds the live
    block of [p] through the secret of the resource, attaches [q] to it and
    stores [false] in its acquired flag. *)
Lemma C2_counterexample :
  let s := run empty_heap
             [call_make_owned virtual_destructor; call_unique_ptr (Some 0)] in
  let s' := step s (call_from_unique_ptr virtual_destructor 1) in
  blocks s !! 0 = Some (mk_cell (mk_control_block 1 true false) 1) ∧
  blocks s' !! 0 = Some (mk_cell (mk_control_block 1 false false) 2) ∧
  acquired (Some 0) s = true ∧ acquired (Some 0) s' = false.
Proof. vm_compute. done. Qed.

(** ** One control block per resource with a secret *)

Lemma reachable_run (os : list operation) (s : heap) :
  reachable s → well_typed_run s os → reachable (run s os).
Proof.
  revert s. induction os as [|o os IH]; intros s Hs Hos; [done|].
  destruct Hos as [Ho Hos]. apply IH; [by constructor | done].
Qed.

Lemma reachable_heap_ok (s : heap) : reachable s → heap_ok s.
Proof.
  induction 1; [apply heap_ok_empty | by apply heap_ok_step].
Qed.

Lemma tracked_empty : tracked empty_heap.
Proof. split; simpl; intros c cell; by rewrite lookup_empty. Qed.

Lemma tracked_alter (f : shared_cell → shared_cell) (c : N) (s : heap) :
  (∀ cell, _ptr (tuple (f cell)) = _ptr (tuple cell)) →
  tracked s → tracked (with_blocks (alter f c) s).
Proof.
  intros Hf [Hp Hw]. split; simpl.
  - intros c' cell'. rewrite lookup_alter. case_decide; [subst c'|by eauto].
    destruct (blocks s !! c) as [cell|] eqn:Hc; [|done].
    intros [= <-]. rewrite Hf. by eapply Hp.
  - intros c' cell' w. rewrite lookup_alter. case_decide; [subst c'|by eauto].
    destruct (blocks s !! c) as [cell|] eqn:Hc; [|done].
    intros [= <-]. rewrite Hf. by eapply Hw.
Qed.

Lemma tracked_delete_block (c : N) (s : heap) :
  tracked s → tracked (with_blocks (delete c) s).
Proof.
  intros [Hp Hw]. split; simpl.
  - intros c' cell' [_ Hc']%lookup_delete_Some. eauto.
  - intros c' cell' w [_ Hc']%lookup_delete_Some. eauto.
Qed.

Lemma tracked_delete_object (p : address) (s : heap) :
  tracked s → tracked (delete_object p s).
Proof.
  intros [Hp Hw]. rewrite delete_object_eq. split; simpl.
  - intros c cell'. rewrite lookup_mark_deleted. case_decide; [|by eauto].
    destruct (blocks s !! c) as [cell|] eqn:Hc; [|done].
    intros [= <-]. simpl. by eapply Hp.
  - intros c cell' w. rewrite lookup_mark_deleted.
    assert (∀ cell, blocks s !! c = Some cell →
              delete p (objects s) !! _ptr (tuple cell) =
                Some (destruction_notify_object w) → w = Some c) as Hold.
    { intros cell Hc [_ Ho]%lookup_delete_Some. eauto. }
    case_decide; [|by eauto].
    destruct (blocks s !! c) as [cell|] eqn:Hc; [|done].
    intros [= <-]. simpl. by eapply Hold.
Qed.

Lemma tracked_release (h : shared_ptr) (s : heap) :
  tracked s → tracked (release h s).
Proof.
  intros Hs. destruct h as [c|]; [|done]. rewrite release_eq.
  destruct (blocks s !! c) as [cell|] eqn:Hc; [|done].
  case_decide.
  - apply tracked_delete_block.
    destruct (negb _); [by apply tracked_delete_object | done].
  - by apply tracked_alter.
Qed.

Lemma tracked_alloc_object (o : object) (s : heap) :
  tracked s → tracked (snd (alloc_object o s)).
Proof.
  intros [Hp Hw]. split; simpl.
  - intros c cell Hc%Hp. lia.
  - intros c cell w Hc. pose proof (Hp _ _ Hc).
    rewrite lookup_insert_ne by lia. by eapply Hw.
Qed.

Lemma tracked_owned_pointer_raw (T : element_type) (p : address) (a : bool)
    (s : heap) :
  heap_ok s → tracked s →
  p = nullptr ∨ is_Some (objects s !! p) →
  (∀ w, objects s !! p = Some (destruction_notify_object w) →
        is_polymorphic T = true) →
  tracked (snd (owned_pointer_raw T p a s)).
Proof.
  intros Hok Hs Hlive Hpoly. destruct (back_reference T p s) as [c|] eqn:Hb.
  - rewrite (owned_pointer_raw_attach _ _ _ _ _ Hb). simpl.
    apply tracked_alter; [done|]. by apply tracked_alter.
  - rewrite (owned_pointer_raw_fresh _ _ _ _ Hb).
    destruct Hs as [Hp Hw]. destruct Hok as [Hbl Ho Hn _ _].
    assert (Hpn : p < next_object s).
    { destruct Hlive as [->|[o Hpo]]; [done|]. by destruct (Ho _ _ Hpo). }
    split; simpl.
    + intros c cell. rewrite lookup_insert. case_decide; [|by eauto].
      by intros [= <-].
    + intros c cell w. rewrite lookup_insert. case_decide as Hc.
      * subst c. intros [= <-]. simpl.
        destruct (secret_of T p s) as [w0|] eqn:Hsec.
        { rewrite lookup_insert_eq. by intros [= <-]. }
        intros Hpw. pose proof (Hpoly _ Hpw) as HT.
        destruct (Ho _ _ Hpw) as [Hp0 _].
        assert (secret_of T p s = Some w) as Hsec'
          by (apply secret_of_Some; repeat split; [done | lia | done]).
        congruence.
      * intros Hcell. destruct (secret_of T p s) as [w0|] eqn:Hsec; [|by eauto].
        rewrite lookup_insert. case_decide as Hpc; [|by eauto].
        intros [= <-]. exfalso.
        pose proof Hsec as Hsec0.
        apply secret_of_Some in Hsec0 as (_ & _ & Hpw).
        rewrite Hpc in Hpw. pose proof (Hw _ _ _ Hcell Hpw) as ->.
        unfold back_reference in Hb. rewrite Hsec in Hb.
        change (lockable (Some c) s = None) in Hb.
        destruct (Hbl _ _ Hcell) as [_ Hcount].
        assert (lockable (Some c) s = Some c) as Hlock
          by (apply lockable_Some; eauto).
        congruence.
Qed.

Lemma tracked_step (s : heap) (o : operation) :
  heap_ok s → tracked s → well_typed s o → tracked (step s o).
Proof.
  intros Hok Hs Ho. destruct o as [T|T|T u|T u|p|p|p|p|u]; simpl.
  - unfold make_owned, owned_pointer_from_unique_ptr.
    destruct (alloc_object _ s) as [a s1] eqn:Ha.
    assert (heap_ok s1 ∧ tracked s1) as [Hok1 Hs1].
    { change s1 with (snd (a, s1)). rewrite <- Ha.
      split; [by apply heap_ok_alloc_object | by apply tracked_alloc_object]. }
    injection Ha as <- <-.
    apply tracked_owned_pointer_raw; try done.
    + right. simpl. rewrite lookup_insert_eq. eauto.
    + intros w. simpl. rewrite lookup_insert_eq.
      destruct T; simpl; by try done.
  - by apply (tracked_alloc_object plain_object).
  - destruct Ho. by apply tracked_owned_pointer_raw.
  - destruct Ho. by apply tracked_owned_pointer_raw.
  - destruct p as [c|]; [|done]. by apply tracked_alter.
  - unfold unique_ptr. destruct (negb _); [|done].
    destruct (negb _); [|done].
    destruct p as [c|]; [|done]. by apply tracked_alter.
  - done.
  - by apply tracked_release.
  - by apply tracked_delete_object.
Qed.

Lemma reachable_tracked (s : heap) : reachable s → tracked s.
Proof.
  induction 1 as [|s o Hs IH Ho]; [apply tracked_empty|].
  apply tracked_step; [by apply reachable_heap_ok | done | done].
Qed.

(** C5, as amended: the constructor from a raw pointer attaches the new
    handle to the block the back-reference of the pointer resolves to and
    allocates nothing; the back-reference resolves exactly when the pointer is
    seen through a polymorphic type, is not null, and points at a resource
    with a secret that names a block still held; in every other case, a type
    that is not polymorphic among them, the constructor allocates a new block.
    So in every heap a well-typed client reaches, a live resource with a
    secret has at most one control block, the one its secret names; a
    resource without a secret can have several. *)
Theorem C5_one_block_per_resource_with_secret :
  (∀ T p a s c, back_reference T p s = Some c →
     fst (owned_pointer_raw T p a s) = Some c ∧
     next_block (snd (owned_pointer_raw T p a s)) = next_block s ∧
     ∀ c', is_Some (blocks (snd (owned_pointer_raw T p a s)) !! c') ↔
           is_Some (blocks s !! c')) ∧
  (∀ T p a s, back_reference T p s = None →
     fst (owned_pointer_raw T p a s) = Some (next_block s) ∧
     next_block (snd (owned_pointer_raw T p a s)) = N.succ (next_block s) ∧
     blocks (snd (owned_pointer_raw T p a s)) !! next_block s =
       Some (mk_cell (mk_control_block p a false) 1)) ∧
  (∀ T p s c, back_reference T p s = Some c ↔
     is_polymorphic T = true ∧ p ≠ nullptr ∧
     objects s !! p = Some (destruction_notify_object (Some c)) ∧
     ∃ cell, blocks s !! c = Some cell ∧ (0 < use_count cell)%nat) ∧
  (∀ p s, back_reference non_polymorphic p s = None) ∧
  (∀ s, reachable s →
     ∀ c1 c2 cell1 cell2 w,
       blocks s !! c1 = Some cell1 → blocks s !! c2 = Some cell2 →
       _ptr (tuple cell2) = _ptr (tuple cell1) →
       objects s !! _ptr (tuple cell1) = Some (destruction_notify_object w) →
       c1 = c2 ∧ w = Some c1).
Proof.
  split; [|split; [|split; [|split]]].
  - intros T p a s c Hb. rewrite (owned_pointer_raw_attach _ _ _ _ _ Hb).
    simpl. split; [done|]. split; [done|].
    intros c'. by rewrite !lookup_alter_is_Some.
  - intros T p a s Hb. rewrite (owned_pointer_raw_fresh _ _ _ _ Hb).
    simpl. split; [done|]. split; [done|]. by rewrite lookup_insert_eq.
  - intros T p s c. apply back_reference_Some.
  - intros p s. reflexivity.
  - intros s Hr c1 c2 cell1 cell2 w H1 H2 Hp Hw.
    pose proof (reachable_tracked _ Hr) as Ht.
    pose proof (secret_names_block _ Ht _ _ _ H1 Hw) as Hw1.
    rewrite <- Hp in Hw.
    pose proof (secret_names_block _ Ht _ _ _ H2 Hw) as Hw2.
    split; congruence.
Qed.

(** [auto p = make_owned<X>()] for [X] with a virtual destructor,
    [auto u = p.unique_ptr()], then [owned_pointer<X> r = link(u)]: the
    handle [r] is attached to the block of [p], and it is the only block. *)
Lemma C5_one_block_per_resource_with_secret_witness :
  let s := run empty_heap
             [call_make_owned virtual_destructor; call_unique_ptr (Some 0);
              call_from_link virtual_destructor 1] in
  reachable s ∧
  blocks s !! 0 = Some (mk_cell (mk_control_block 1 true false) 2) ∧
  objects s !! 1 = Some (destruction_notify_object (Some 0)) ∧
  ∀ c cell, blocks s !! c = Some cell → _ptr (tuple cell) = 1 → 0 = c.
Proof.
  cbv zeta.
  assert (Hr : reachable (run empty_heap
             [call_make_owned virtual_destructor; call_unique_ptr (Some 0);
              call_from_link virtual_destructor 1])).
  { apply reachable_run; [constructor|].
    repeat split. right. vm_compute. eauto. }
  assert (H0 : blocks (run empty_heap
             [call_make_owned virtual_destructor; call_unique_ptr (Some 0);
              call_from_link virtual_destructor 1]) !! 0 =
          Some (mk_cell (mk_control_block 1 true false) 2))
    by (vm_compute; reflexivity).
  assert (H1 : objects (run empty_heap
             [call_make_owned virtual_destructor; call_unique_ptr (Some 0);
              call_from_link virtual_destructor 1]) !! 1 =
          Some (destruction_notify_object (Some 0)))
    by (vm_compute; reflexivity).
  split; [exact Hr|]. split; [exact H0|]. split; [exact H1|].
  intros c cell Hc Hp.
  destruct C5_one_block_per_resource_with_secret as (_ & _ & _ & _ & Hone).
  destruct (Hone _ Hr 0 c _ cell (Some 0) H0 Hc Hp H1) as [Heq _].
  exact Heq.
Defined.

(** A resource without a secret gets a block from every constructor:
    [auto p = make_owned<int>()], [auto u = p.unique_ptr()], then
    [owned_pointer<int> r = link(u)] leave two control blocks on the one
    live resource. *)
Lemma C5_counterexample :
  let s := run empty_heap
             [call_make_owned non_polymorphic; call_unique_ptr (Some 0);
              call_from_link non_polymorphic 1] in
  reachable s ∧
  objects s !! 1 = Some plain_object ∧
  blocks s !! 0 = Some (mk_cell (mk_control_block 1 true false) 1) ∧
  blocks s !! 1 = Some (mk_cell (mk_control_block 1 true false) 1).
Proof.
  cbv zeta. split.
  - apply reachable_run; [constructor|].
    repeat split; try done. right. vm_compute. eauto.
  - vm_compute. done.
Qed.

(** ** The block of a resource made by make_owned *)

Section attached_to.
Variables (a : address) (c : N).

Lemma attached_to_alter (f : shared_cell → shared_cell) (c' : N) (s : heap) :
  attached_to a c s → attached_to a c (with_blocks (alter f c') s).
Proof.
  intros (Ha & Hc & Hw). repeat split; try done. simpl.
  intros o Ho. destruct (Hw o Ho) as (w & -> & Hwc). exists w.
  split; [done|]. rewrite lookup_alter_is_Some. done.
Qed.

Lemma attached_to_delete_block (c' : N) (s : heap) :
  attached_to a c s → attached_to a c (with_blocks (delete c') s).
Proof.
  intros (Ha & Hc & Hw). repeat split; try done. simpl.
  intros o Ho. destruct (Hw o Ho) as (w & -> & Hwc). exists w.
  split; [done|]. intros [cell [_ Hcell]%lookup_delete_Some]. eauto.
Qed.

Lemma attached_to_delete_object (p : address) (s : heap) :
  attached_to a c s → attached_to a c (delete_object p s).
Proof.
  intros (Ha & Hc & Hw). rewrite delete_object_eq.
  repeat split; try done. simpl.
  intros o [_ Ho]%lookup_delete_Some.
  destruct (Hw o Ho) as (w & -> & Hwc). exists w. split; [done|].
  rewrite lookup_mark_deleted. case_decide; [|done].
  rewrite fmap_is_Some. done.
Qed.

Lemma attached_to_release (h : shared_ptr) (s : heap) :
  attached_to a c s → attached_to a c (release h s).
Proof.
  intros Hs. destruct h as [c'|]; [|done]. rewrite release_eq.
  destruct (blocks s !! c') as [cell|] eqn:Hc; [|done].
  case_decide.
  - apply attached_to_delete_block.
    destruct (negb _); [by apply attached_to_delete_object | done].
  - by apply attached_to_alter.
Qed.

Lemma attached_to_alloc_object (o : object) (s : heap) :
  attached_to a c s → attached_to a c (snd (alloc_object o s)).
Proof.
  intros (Ha & Hc & Hw). repeat split; simpl; [lia | done |].
  intros o'. rewrite lookup_insert_ne by lia. apply Hw.
Qed.

Lemma attached_to_owned_pointer_raw (T : element_type) (p : address)
    (acq : bool) (s : heap) :
  heap_ok s → attached_to a c s →
  attached_to a c (snd (owned_pointer_raw T p acq s)).
Proof.
  intros Hok Hs. destruct (back_reference T p s) as [c'|] eqn:Hb.
  - rewrite (owned_pointer_raw_attach _ _ _ _ _ Hb). simpl.
    by do 2 apply attached_to_alter.
  - rewrite (owned_pointer_raw_fresh _ _ _ _ Hb).
    destruct Hs as (Ha & Hc & Hw). repeat split; simpl; [done | lia |].
    rewrite lookup_insert_ne by lia.
    destruct (secret_of T p s) as [w0|] eqn:Hsec; [|done].
    intros o. rewrite lookup_insert. case_decide as Hpa; [|by apply Hw].
    intros [= <-]. eexists. split; [done|]. intros Hlive. exfalso.
    subst p. pose proof Hsec as (_ & _ & Ho)%secret_of_Some.
    destruct (Hw _ Ho) as (w & [= <-] & Hwc). rewrite (Hwc Hlive) in *.
    destruct Hlive as [cell Hcell].
    destruct (blocks_allocated _ Hok _ _ Hcell) as [_ Hcount].
    unfold back_reference in Hb. rewrite Hsec in Hb.
    change (lockable (Some c) s = None) in Hb.
    assert (lockable (Some c) s = Some c) by (apply lockable_Some; eauto).
    congruence.
Qed.

Lemma attached_to_step (s : heap) (o : operation) :
  heap_ok s → attached_to a c s → attached_to a c (step s o).
Proof.
  intros Hok Hs. destruct o as [T|T|T u|T u|p|p|p|p|u]; simpl.
  - unfold make_owned, owned_pointer_from_unique_ptr.
    destruct (alloc_object _ s) as [a1 s1] eqn:Ha.
    assert (heap_ok s1 ∧ attached_to a c s1) as [Hok1 Hs1].
    { change s1 with (snd (a1, s1)). rewrite <- Ha. split;
        [by apply heap_ok_alloc_object | by apply attached_to_alloc_object]. }
    by apply attached_to_owned_pointer_raw.
  - by apply (attached_to_alloc_object plain_object).
  - by apply attached_to_owned_pointer_raw.
  - by apply attached_to_owned_pointer_raw.
  - destruct p as [c'|]; [|done]. by apply attached_to_alter.
  - unfold unique_ptr. destruct (negb _); [|done].
    destruct (negb _); [|done].
    destruct p as [c'|]; [|done]. by apply attached_to_alter.
  - done.
  - by apply attached_to_release.
  - by apply attached_to_delete_object.
Qed.

Lemma attached_to_run (os : list operation) (s : heap) :
  heap_ok s → attached_to a c s → attached_to a c (run s os).
Proof.
  revert s. induction os as [|o os IH]; intros s Hok Hs; [done|].
  apply IH; [by apply heap_ok_step | by apply attached_to_step].
Qed.
End attached_to.

Lemma attached_to_make_owned (T : element_type) (s : heap) :
  has_virtual_destructor T = true → heap_ok s →
  attached_to (next_object s) (next_block s) (snd (make_owned T s)).
Proof.
  intros HT Hok. rewrite make_owned_eq. repeat split; simpl; [lia..|].
  rewrite lookup_insert_eq. intros o [= <-]. rewrite HT.
  pose proof (next_object_nonnull _ Hok) as Hn.
  destruct (N.eqb_spec (next_object s) nullptr) as [H0|H0]; [lia|].
  simpl. eauto.
Qed.

(** ** The trace of delete_event *)

Lemma delete_events_step (s : heap) (o : operation) (a : address) :
  a ∈ delete_events s → a ∈ delete_events (step s o).
Proof.
  intros Ha.
  assert (Hraw : ∀ T p acq,
            delete_events (snd (owned_pointer_raw T p acq s)) = delete_events s).
  { intros T p acq. destruct (back_reference T p s) as [c|] eqn:Hb.
    - by rewrite (owned_pointer_raw_attach _ _ _ _ _ Hb).
    - by rewrite (owned_pointer_raw_fresh _ _ _ _ Hb). }
  destruct o as [T|T|T u|T u|p|p|p|p|u]; simpl; try done.
  - by rewrite make_owned_eq.
  - unfold owned_pointer_from_unique_ptr. by rewrite Hraw.
  - unfold owned_pointer_from_link. by rewrite Hraw.
  - by destruct p.
  - unfold unique_ptr. destruct (negb _); [|done].
    destruct (negb _); [|done]. by destruct p.
  - destruct p as [c|]; [|done]. rewrite release_eq.
    destruct (blocks s !! c) as [cell|]; [|done].
    case_decide; [|done]. simpl.
    destruct (negb _); [|done].
    rewrite delete_object_eq. simpl. apply elem_of_app. by right.
  - rewrite delete_object_eq. simpl. apply elem_of_app. by right.
Qed.

Lemma delete_events_run (os : list operation) (s : heap) (a : address) :
  a ∈ delete_events s → a ∈ delete_events (run s os).
Proof.
  revert s. induction os as [|o os IH]; intros s Ha; [done|].
  by apply IH, delete_events_step.
Qed.

Lemma run_app (os1 os2 : list operation) (s : heap) :
  run s (os1 ++ os2) = run (run s os1) os2.
Proof. apply foldl_app. Qed.

(** ** Destruction seen from the shared handles *)

Lemma deref_Some_inv (p : shared_ptr) (s : heap) (cb : control_block) :
  deref p s = Some cb →
  ∃ c cell, p = Some c ∧ blocks s !! c = Some cell ∧ tuple cell = cb.
Proof.
  destruct p as [c|]; [|done]. rewrite deref_Some.
  destruct (blocks s !! c) as [cell|] eqn:Hc; [|done].
  intros [= <-]. exists c, cell. done.
Qed.

Lemma expired_throws (p : shared_ptr) (s : heap) :
  expired p s = true →
  get p s = throws ptr_is_already_deleted ∧
  operator_arrow p s = throws ptr_is_already_deleted ∧
  operator_star p s = Some (throws ptr_is_already_deleted).
Proof.
  intros He. unfold get, operator_arrow, operator_star,
    throw_if_is_destroyed_and_has_virtual_dtor. by rewrite He.
Qed.

(** [delete_event] with a weak_ptr that does not lock changes no block. *)
Lemma delete_object_expired_secret (a : address) (w : weak_ptr) (s : heap) :
  objects s !! a = Some (destruction_notify_object w) →
  lockable w s = None →
  blocks (delete_object a s) = blocks s ∧
  objects (delete_object a s) = delete a (objects s) ∧
  delete_events (delete_object a s) = a :: delete_events s.
Proof.
  intros Ha Hw. rewrite delete_object_eq. unfold notified, fired.
  rewrite Ha, Hw. done.
Qed.

Lemma lockable_freed (c : N) (s : heap) :
  blocks s !! c = None → lockable (Some c) s = None.
Proof. intros Hc. unfold lockable. simpl. by rewrite Hc. Qed.

(** [auto p = make_owned<X>()], [auto u = p.unique_ptr()], the handle [p]
    ends, and then [u] deletes the resource: the weak_ptr of the secret no
    longer locks, no block is touched, the resource is freed and
    [delete_event] has run once. *)
Example delete_event_after_block_freed :
  let s := run empty_heap
             [call_make_owned virtual_destructor; call_unique_ptr (Some 0);
              call_destroy (Some 0)] in
  blocks s = ∅ ∧
  objects s !! 1 = Some (destruction_notify_object (Some 0)) ∧
  blocks (delete_object 1 s) = ∅ ∧
  objects (delete_object 1 s) = ∅ ∧
  delete_events (delete_object 1 s) = [1].
Proof. vm_compute. done. Qed.

(** ** Further properties of the handles *)

(** An empty handle, default- or nullptr-constructed: [unique_ptr] returns
    an empty exclusive handle and changes nothing, [get] and [operator->]
    return null, the queries answer false, the handle equals every other
    empty handle and [nullptr], and copying or destroying it leaves the heap
    as it is. *)
Theorem empty_handle_is_inert (s : heap) :
  unique_ptr owned_pointer_default s = (returns nullptr, s) ∧
  get owned_pointer_default s = returns nullptr ∧
  operator_arrow owned_pointer_default s = returns nullptr ∧
  acquired owned_pointer_default s = false ∧
  expired owned_pointer_default s = false ∧
  operator_bool owned_pointer_default s = false ∧
  operator_eq owned_pointer_default owned_pointer_default s = true ∧
  eq_nullptr owned_pointer_default s = true ∧
  nullptr_eq owned_pointer_default s = true ∧
  owned_pointer_copy owned_pointer_default s = (owned_pointer_default, s) ∧
  release owned_pointer_default s = s.
Proof. by repeat split. Qed.

(** Once [unique_ptr] has handed the resource out, the handle, its copies
    and the copies made afterwards all report [acquired], and [unique_ptr]
    throws through each of them. *)
Theorem acquired_is_seen_by_every_copy
    (this : shared_ptr) (s s1 : heap) (a : address) :
  a ≠ nullptr →
  unique_ptr this s = (returns a, s1) →
  acquired this s1 = true ∧
  get_pointer this s1 = a ∧
  ∀ os, Forall (λ o, o = call_copy this ∨ o = call_get this) os →
    acquired this (run s1 os) = true ∧
    unique_ptr this (run s1 os) =
      (throws unique_ptr_already_acquired, run s1 os) ∧
    fst (owned_pointer_copy this (run s1 os)) = this.
Proof.
  intros Ha Hu. unfold unique_ptr in Hu.
  destruct (N.eqb_spec (get_pointer this s) nullptr) as [H0|H0];
    cbn [negb] in Hu; [by simplify_eq|].
  destruct (acquired this s) eqn:Hacq; cbn [negb] in Hu; [done|].
  injection Hu as <- <-.
  pose proof (get_pointer_nonnull_deref _ _ H0) as Hd.
  assert (H1 : acquired this (store_acquired this true s) = true)
    by by apply acquired_store_acquired.
  split; [done|]. split; [done|].
  rewrite get_pointer_store_acquired in Ha.
  set (s1 := store_acquired this true s) in *.
  assert (Hp1 : get_pointer this s1 = get_pointer this s)
    by apply get_pointer_store_acquired.
  clearbody s1. intros os Hos.
  assert (acquired this (run s1 os) = true ∧
          get_pointer this (run s1 os) = get_pointer this s) as [Hacq' Hp'].
  { revert s1 H1 Hp1. induction Hos as [|o os Ho Hos IH]; intros s1 H1 Hp1;
      [done|].
    simpl. apply IH.
    - destruct Ho as [-> | ->]; [|done]. simpl.
      destruct this as [c|]; [|done]. unfold acquired in *.
      rewrite deref_Some in *. simpl. rewrite lookup_alter_eq.
      by destruct (blocks s1 !! c).
    - destruct Ho as [-> | ->]; [|done]. simpl.
      destruct this as [c|]; [|done]. unfold get_pointer in *.
      rewrite deref_Some in *. simpl. rewrite lookup_alter_eq.
      by destruct (blocks s1 !! c). }
  split; [done|]. split.
  - unfold unique_ptr. rewrite Hp', Hacq'.
    apply N.eqb_neq in Ha. by rewrite Ha.
  - by destruct this.
Qed.

Lemma acquired_is_seen_by_every_copy_witness :
  let s := snd (make_owned non_polymorphic empty_heap) in
  unique_ptr (Some 0) s = (returns 1, store_acquired (Some 0) true s) ∧
  acquired (Some 0)
    (run (store_acquired (Some 0) true s)
       [call_copy (Some 0); call_get (Some 0); call_copy (Some 0)]) = true.
Proof.
  cbv zeta.
  assert (Hu : unique_ptr (Some 0)
                 (snd (make_owned non_polymorphic empty_heap)) =
               (returns 1,
                store_acquired (Some 0) true
                  (snd (make_owned non_polymorphic empty_heap))))
    by (vm_compute; reflexivity).
  split; [exact Hu|].
  assert (Hne : (1 : N) ≠ nullptr) by discriminate.
  destruct (acquired_is_seen_by_every_copy _ _ _ _ Hne Hu) as (_ & _ & Hall).
  destruct (Hall [call_copy (Some 0); call_get (Some 0); call_copy (Some 0)])
    as (Hacq & _).
  - repeat (apply Forall_cons; split; [(by left) || (by right)|]).
    apply Forall_nil_2.
  - exact Hacq.
Defined.

(** A resource of a type with a virtual destructor is handed out by
    [unique_ptr] and wrapped again by [owned_pointer(std::unique_ptr<T>)]
    while its first handle lives: the new handle is the old one, the block
    owns the resource again and is not marked deleted, [get] still returns
    the address; when both handles have ended the resource is freed and
    [delete_event] has run for it once. *)
Theorem rewrapped_resource_returns_to_its_block (before : list operation) :
  let s0 := run empty_heap before in
  let a := next_object s0 in
  let '(p, s1) := make_owned virtual_destructor s0 in
  let '(u, s2) := unique_ptr p s1 in
  let '(q, s3) := owned_pointer_from_unique_ptr virtual_destructor a s2 in
  let s4 := release q (release p s3) in
  u = returns a ∧ acquired p s2 = true ∧
  q = p ∧ acquired p s3 = false ∧ expired p s3 = false ∧
  get p s3 = returns a ∧
  next_block s3 = next_block s1 ∧
  is_Some (objects s3 !! a) ∧
  deref p s4 = None ∧ objects s4 !! a = None ∧
  delete_events s4 = a :: delete_events s0.
Proof.
  intros s0 a.
  assert (Hok0 : heap_ok s0)
    by (unfold s0; apply heap_ok_run; apply heap_ok_empty).
  pose proof (next_object_nonnull _ Hok0) as Hn. fold a in Hn.
  assert ((a =? nullptr) = false) as Ha0 by (apply N.eqb_neq; lia).
  rewrite make_owned_eq. fold a. rewrite Ha0.
  cbn [has_virtual_destructor negb andb].
  set (c := next_block s0). set (s1 := {| blocks := _ |}).
  assert (Hc1 : blocks s1 !! c =
                Some (mk_cell (mk_control_block a false false) 1))
    by apply lookup_insert_eq.
  assert (Ho1 : objects s1 !! a = Some (destruction_notify_object (Some c)))
    by apply lookup_insert_eq.
  assert (Hu : unique_ptr (Some c) s1 =
               (returns a, store_acquired (Some c) true s1)).
  { unfold unique_ptr. rewrite get_pointer_store_acquired.
    unfold get_pointer, acquired. rewrite deref_Some, Hc1.
    cbn [fmap option_fmap option_map tuple _ptr _acquired negb].
    by rewrite Ha0. }
  rewrite Hu. set (s2 := store_acquired (Some c) true s1).
  assert (Hc2 : blocks s2 !! c =
                Some (mk_cell (mk_control_block a true false) 1))
    by (unfold s2; cbn [store_acquired with_blocks blocks];
        by rewrite lookup_alter_eq, Hc1).
  assert (Hb : back_reference virtual_destructor a s2 = Some c).
  { apply back_reference_Some. split; [done|]. split; [lia|].
    split; [exact Ho1|]. eexists. split; [exact Hc2 | simpl; lia]. }
  unfold owned_pointer_from_unique_ptr.
  rewrite (owned_pointer_raw_attach _ _ _ _ _ Hb).
  set (s3 := with_blocks _ (with_blocks _ s2)).
  assert (Hc3 : blocks s3 !! c =
                Some (mk_cell (mk_control_block a false false) 2))
    by (unfold s3; cbn [with_blocks blocks];
        by rewrite !lookup_alter_eq, Hc2).
  assert (Hr1 : release (Some c) s3 =
                with_blocks (alter (set_use_count pred) c) s3)
    by (by rewrite release_eq, Hc3).
  rewrite Hr1. set (s4 := with_blocks _ s3).
  assert (Hc4 : blocks s4 !! c =
                Some (mk_cell (mk_control_block a false false) 1))
    by (unfold s4; cbn [with_blocks blocks];
        by rewrite lookup_alter_eq, Hc3).
  assert (Ho4 : objects s4 !! a = Some (destruction_notify_object (Some c)))
    by exact Ho1.
  assert (Hr2 : release (Some c) s4 =
                with_blocks (delete c) (delete_object a s4))
    by (by rewrite release_eq, Hc4).
  rewrite Hr2, delete_object_eq.
  unfold get, throw_if_is_destroyed_and_has_virtual_dtor, expired,
    get_pointer, acquired, fired.
  rewrite !deref_Some, Hc2, Hc3, Ho4.
  cbn [with_blocks blocks objects delete_events next_block].
  rewrite lookup_delete_eq, lookup_delete_eq.
  repeat split; eauto.
Qed.

(** ** The deleted flag tells the truth *)

Lemma marks_ok_empty : marks_ok empty_heap.
Proof.
  split; simpl.
  - intros a c cell. by rewrite lookup_empty.
  - intros a c. by rewrite lookup_empty.
  - intros c cell. by rewrite lookup_empty.
Qed.

Lemma marks_ok_alter (f : shared_cell → shared_cell) (c : N) (s : heap) :
  (∀ cell, _ptr (tuple (f cell)) = _ptr (tuple cell) ∧
           _deleted (tuple (f cell)) = _deleted (tuple cell)) →
  marks_ok s → marks_ok (with_blocks (alter f c) s).
Proof.
  intros Hf [Hh Ha Hd]. split; simpl; [|done|].
  - intros a c' cell' Ho. rewrite lookup_alter. case_decide; [subst c'|by eauto].
    destruct (blocks s !! c) as [cell|] eqn:Hc; [|done].
    intros [= <-]. destruct (Hf cell) as [-> _]. by eapply Hh.
  - intros c' cell'. rewrite lookup_alter. case_decide; [subst c'|by eauto].
    destruct (blocks s !! c) as [cell|] eqn:Hc; [|done].
    intros [= <-]. destruct (Hf cell) as [-> ->]. by eapply Hd.
Qed.

Lemma marks_ok_delete_block (c : N) (s : heap) :
  marks_ok s → marks_ok (with_blocks (delete c) s).
Proof.
  intros [Hh Ha Hd]. split; simpl; [|done|].
  - intros a c' cell' Ho [_ Hc']%lookup_delete_Some. eauto.
  - intros c' cell' [_ Hc']%lookup_delete_Some. eauto.
Qed.

Lemma notified_Some (p : address) (s : heap) (c : N) :
  notified p s = Some c →
  objects s !! p = Some (destruction_notify_object (Some c)) ∧
  ∃ cell, blocks s !! c = Some cell ∧ (0 < use_count cell)%nat.
Proof.
  unfold notified. destruct (objects s !! p) as [[|w]|]; try done.
  intros [-> ?]%lockable_Some. done.
Qed.

Lemma marks_ok_delete_object (p : address) (s : heap) :
  heap_ok s → marks_ok s → marks_ok (delete_object p s).
Proof.
  intros Hok [Hh Ha Hd]. rewrite delete_object_eq. split; simpl.
  - intros a c cell' [_ Ho]%lookup_delete_Some.
    rewrite lookup_mark_deleted. case_decide; [|by eauto].
    destruct (blocks s !! c) as [cell|] eqn:Hc; [|done].
    intros [= <-]. simpl. by eapply Hh.
  - intros a c [_ Ho]%lookup_delete_Some. eauto.
  - intros c cell'. rewrite lookup_mark_deleted. case_decide as Hn.
    + destruct (blocks s !! c) as [cell|] eqn:Hc; [|done].
      intros [= <-] _. simpl.
      apply notified_Some in Hn as [Ho _].
      rewrite (Hh _ _ _ Ho Hc).
      split; [by eapply objects_allocated | apply lookup_delete_eq].
    + intros Hc Hdel. destruct (Hd _ _ Hc Hdel) as [? Hnone].
      split; [done|]. by apply lookup_delete_None; right.
Qed.

Lemma marks_ok_release (h : shared_ptr) (s : heap) :
  heap_ok s → marks_ok s → marks_ok (release h s).
Proof.
  intros Hok Hs. destruct h as [c|]; [|done]. rewrite release_eq.
  destruct (blocks s !! c) as [cell|] eqn:Hc; [|done].
  case_decide.
  - apply marks_ok_delete_block.
    destruct (negb _); [by apply marks_ok_delete_object | done].
  - by apply marks_ok_alter.
Qed.

Lemma marks_ok_alloc_object (o : object) (s : heap) :
  (∀ c, o ≠ destruction_notify_object (Some c)) →
  heap_ok s → marks_ok s → marks_ok (snd (alloc_object o s)).
Proof.
  intros Hnew Hok [Hh Ha Hd]. split; simpl.
  - intros a c cell. rewrite lookup_insert. case_decide; [|by eauto].
    intros [= ->]. by destruct (Hnew c).
  - intros a c. rewrite lookup_insert. case_decide; [|by eauto].
    intros [= ->]. by destruct (Hnew c).
  - intros c cell Hc Hdel. destruct (Hd _ _ Hc Hdel) as [Hlt Hnone].
    split; [lia|]. rewrite lookup_insert_ne; [done | lia].
Qed.

Lemma marks_ok_owned_pointer_raw (T : element_type) (p : address) (a : bool)
    (s : heap) :
  heap_ok s → marks_ok s → marks_ok (snd (owned_pointer_raw T p a s)).
Proof.
  intros Hok Hs. destruct (back_reference T p s) as [c|] eqn:Hb.
  - rewrite (owned_pointer_raw_attach _ _ _ _ _ Hb). simpl.
    apply marks_ok_alter; [done|]. by apply marks_ok_alter.
  - rewrite (owned_pointer_raw_fresh _ _ _ _ Hb).
    destruct Hs as [Hh Ha Hd]. destruct Hok as [Hbl Ho Hn _ _].
    assert (Hfound : ∀ w, secret_of T p s = Some w → is_Some (objects s !! p)).
    { intros w (_ & _ & ?)%secret_of_Some. eauto. }
    split; simpl.
    + intros a' c cell Ho'.
      assert (c = next_block s ∧ a' = p ∨
              c < next_block s ∧
              objects s !! a' = Some (destruction_notify_object (Some c)))
        as [[-> ->]|[Hlt Hold]].
      { destruct (secret_of T p s) as [w|]; [|by right; eauto].
        rewrite lookup_insert in Ho'. case_decide.
        - left. by simplify_eq.
        - right. eauto. }
      * rewrite lookup_insert_eq. by intros [= <-].
      * rewrite lookup_insert_ne by lia. by apply Hh.
    + intros a' c Ho'.
      destruct (secret_of T p s) as [w|].
      * rewrite lookup_insert in Ho'. case_decide; [simplify_eq; lia|].
        pose proof (Ha _ _ Ho'). lia.
      * pose proof (Ha _ _ Ho'). lia.
    + intros c cell. rewrite lookup_insert. case_decide; [by intros [= <-]|].
      intros Hc Hdel. destruct (Hd _ _ Hc Hdel) as [Hlt Hnone].
      split; [done|].
      destruct (secret_of T p s) as [w|] eqn:Hw; [|done].
      destruct (Hfound w eq_refl) as [o Hpo].
      rewrite lookup_insert_ne; [done | congruence].
Qed.

Lemma marks_ok_step (s : heap) (o : operation) :
  heap_ok s → marks_ok s → marks_ok (step s o).
Proof.
  intros Hok Hs. destruct o as [T|T|T u|T u|p|p|p|p|u]; simpl.
  - unfold make_owned, owned_pointer_from_unique_ptr.
    destruct (alloc_object _ s) as [a1 s1] eqn:Ha.
    assert (heap_ok s1 ∧ marks_ok s1) as [Hok1 Hs1].
    { change s1 with (snd (a1, s1)). rewrite <- Ha. split;
        [by apply heap_ok_alloc_object|].
      apply marks_ok_alloc_object; [|done..].
      intros c. by destruct (has_virtual_destructor T). }
    by apply marks_ok_owned_pointer_raw.
  - by apply (marks_ok_alloc_object plain_object).
  - by apply marks_ok_owned_pointer_raw.
  - by apply marks_ok_owned_pointer_raw.
  - destruct p as [c|]; [|done]. by apply marks_ok_alter.
  - unfold unique_ptr. destruct (negb _); [|done].
    destruct (negb _); [|done].
    destruct p as [c|]; [|done]. by apply marks_ok_alter.
  - done.
  - by apply marks_ok_release.
  - by apply marks_ok_delete_object.
Qed.

Lemma marks_ok_run (os : list operation) (s : heap) :
  heap_ok s → marks_ok s → marks_ok (run s os).
Proof.
  revert s. induction os as [|o os IH]; intros s Hok Hs; [done|].
  apply IH; [by apply heap_ok_step | by apply marks_ok_step].
Qed.

(** Whatever the client has called, a handle reports [expired] only when
    the resource it points at has been freed: on a live resource [get],
    [operator->] and [operator*] return the address and do not throw.  And a
    secret that locks a block locks the block of its own resource. *)
Theorem expired_only_after_destruction (os : list operation) (p : shared_ptr) :
  let s := run empty_heap os in
  is_Some (objects s !! get_pointer p s) →
  expired p s = false ∧
  get p s = returns (get_pointer p s) ∧
  operator_arrow p s = returns (get_pointer p s) ∧
  operator_star p s = Some (returns (get_pointer p s)) ∧
  ∀ a c, notified a s = Some c → get_pointer (Some c) s = a.
Proof.
  intros s [o Ho].
  assert (Hok : heap_ok s) by (apply heap_ok_run; apply heap_ok_empty).
  assert (Hm : marks_ok s)
    by (apply marks_ok_run; [apply heap_ok_empty | apply marks_ok_empty]).
  assert (He : expired p s = false).
  { destruct (expired p s) eqn:He; [|done]. exfalso.
    unfold expired, get_pointer in *.
    destruct (deref p s) as [cb|] eqn:Hcb; [|done].
    apply deref_Some_inv in Hcb as (c & cell & -> & Hc & <-).
    destruct (deleted_means_freed _ Hm _ _ Hc He). congruence. }
  split; [done|].
  assert (Hnn : (get_pointer p s =? nullptr) = false).
  { apply N.eqb_neq. apply (objects_allocated _ Hok) in Ho.
    unfold nullptr in *. lia. }
  unfold get, operator_arrow, operator_star,
    throw_if_is_destroyed_and_has_virtual_dtor. rewrite He, Hnn.
  split; [done|]. split; [done|]. split; [done|].
  intros a c (Hoa & cell & Hc & _)%notified_Some.
  unfold get_pointer. rewrite deref_Some, Hc. simpl.
  by eapply secret_points_home.
Qed.

Lemma expired_only_after_destruction_witness :
  let os := [call_make_owned virtual_destructor; call_unique_ptr (Some 0);
             call_copy (Some 0)] in
  is_Some (objects (run empty_heap os) !! get_pointer (Some 0) (run empty_heap os)) ∧
  get (Some 0) (run empty_heap os) = returns 1.
Proof.
  cbv zeta.
  assert (Hlive : is_Some (objects (run empty_heap
            [call_make_owned virtual_destructor; call_unique_ptr (Some 0);
             call_copy (Some 0)]) !!
          get_pointer (Some 0) (run empty_heap
            [call_make_owned virtual_destructor; call_unique_ptr (Some 0);
             call_copy (Some 0)])))
    by (vm_compute; eauto).
  split; [exact Hlive|].
  destruct (expired_only_after_destruction _ _ Hlive) as (_ & Hget & _).
  exact Hget.
Defined.

(** ** The hand-off is exclusive *)

(** Once [unique_ptr] has returned the resource of a block, every later
    [unique_ptr] through a handle on that block throws and changes nothing,
    whatever the client has called in between, as long as the block lives and
    no shared handle was constructed from a unique_ptr back onto it; the
    handle keeps reporting [acquired] and the same address. *)
Theorem hand_off_is_exclusive
    (before between : list operation) (p : shared_ptr) (a : address)
    (s1 : heap) :
  let s := run empty_heap before in
  let s2 := run s1 between in
  a ≠ nullptr →
  unique_ptr p s = (returns a, s1) →
  (∀ c, p = Some c → never_rewrapped c s1 between) →
  is_Some (deref p s2) →
  unique_ptr p s2 = (throws unique_ptr_already_acquired, s2) ∧
  operator_unique_ptr_t p s2 = (throws unique_ptr_already_acquired, s2) ∧
  acquired p s2 = true ∧
  get_pointer p s2 = a.
Proof.
  intros s s2 Ha Hu Hnever Hlive. subst s2.
  assert (Hok1 : heap_ok s1).
  { replace s1 with (step s (call_unique_ptr p)) by (simpl; by rewrite Hu).
    apply heap_ok_step, heap_ok_run, heap_ok_empty. }
  unfold unique_ptr in Hu.
  destruct (N.eqb_spec (get_pointer p s) nullptr) as [H0|H0];
    cbn [negb] in Hu; [by simplify_eq|].
  destruct (acquired p s) eqn:Hacq; cbn [negb] in Hu; [done|].
  injection Hu as Hpa Hs1.
  pose proof (get_pointer_nonnull_deref _ _ H0) as Hd.
  assert (Hacq1 : acquired p s1 = true)
    by (rewrite <- Hs1; by apply acquired_store_acquired).
  rewrite Hs1 in Hpa.
  destruct Hlive as [cb2 Hcb2].
  apply deref_Some_inv in Hcb2 as (c & cell2 & -> & Hc2 & <-).
  destruct (evolves_run_never_rewrapped c between s1 (Hnever c eq_refl))
    as [_ Hev].
  unfold acquired, get_pointer in Hacq1, Hpa.
  destruct (deref (Some c) s1) as [cb1|] eqn:Hcb1; [|done].
  apply deref_Some_inv in Hcb1 as (c1 & cell1 & [= <-] & Hc1 & <-).
  destruct (blocks_allocated _ Hok1 _ _ Hc1) as [Hlt _].
  destruct (Hev c cell2 Hc2 Hlt) as (cell1' & Hc1' & [Hptr _] & Hkeep).
  assert (cell1' = cell1) as -> by congruence.
  assert (Hacq2 : acquired (Some c) (run s1 between) = true).
  { unfold acquired. rewrite deref_Some, Hc2. simpl.
    apply Hkeep; [|done]. intros Hne. by apply Hne. }
  assert (Hp2 : get_pointer (Some c) (run s1 between) = a).
  { unfold get_pointer. rewrite deref_Some, Hc2. simpl. congruence. }
  assert (unique_ptr (Some c) (run s1 between) =
          (throws unique_ptr_already_acquired, run s1 between)).
  { unfold unique_ptr. rewrite Hp2, Hacq2.
    apply N.eqb_neq in Ha. by rewrite Ha. }
  done.
Qed.

Lemma hand_off_is_exclusive_witness :
  let s := run empty_heap [call_make_owned non_polymorphic] in
  let between := [call_copy (Some 0); call_from_link non_polymorphic 1;
                  call_destroy (Some 0); call_make_owned virtual_destructor] in
  unique_ptr (Some 0) s = (returns 1, store_acquired (Some 0) true s) ∧
  unique_ptr (Some 0) (run (store_acquired (Some 0) true s) between) =
    (throws unique_ptr_already_acquired,
     run (store_acquired (Some 0) true s) between).
Proof.
  cbv zeta.
  assert (Hu : unique_ptr (Some 0)
                 (run empty_heap [call_make_owned non_polymorphic]) =
               (returns 1, store_acquired (Some 0) true
                  (run empty_heap [call_make_owned non_polymorphic])))
    by (vm_compute; reflexivity).
  split; [exact Hu|].
  assert (Hne : (1 : N) ≠ nullptr) by discriminate.
  refine (proj1 (hand_off_is_exclusive [call_make_owned non_polymorphic]
    [call_copy (Some 0); call_from_link non_polymorphic 1;
     call_destroy (Some 0); call_make_owned virtual_destructor]
    (Some 0) 1 _ Hne Hu _ _)).
  - intros c _. simpl. tauto.
  - vm_compute. eauto.
Defined.

(** ** Comparisons over time *)

(** A block never changes its resource pointer, so what a comparison of two
    handles answers does not change for as long as their blocks live,
    whatever the client calls and also after the resource is deleted: the
    order of the handles is fit for the keys of an ordered container. *)
Theorem comparison_is_stable
    (before after : list operation) (p q : shared_ptr) (a : address) :
  let s := run empty_heap before in
  let s' := run s after in
  is_Some (deref p s) → is_Some (deref p s') →
  get_pointer p s' = get_pointer p s ∧
  compare p a s' = compare p a s ∧
  eq_raw p a s' = eq_raw p a s ∧
  (is_Some (deref q s) → is_Some (deref q s') →
   compare_owned p q s' = compare_owned p q s ∧
   operator_eq p q s' = operator_eq p q s ∧
   operator_ne p q s' = operator_ne p q s ∧
   operator_lt p q s' = operator_lt p q s ∧
   operator_le p q s' = operator_le p q s ∧
   operator_gt p q s' = operator_gt p q s ∧
   operator_ge p q s' = operator_ge p q s).
Proof.
  intros s s'.
  assert (Hok : heap_ok s) by (apply heap_ok_run; apply heap_ok_empty).
  assert (Hptr : ∀ r, is_Some (deref r s) → is_Some (deref r s') →
                      get_pointer r s' = get_pointer r s).
  { intros r [cb Hcb] [cb' Hcb']. unfold get_pointer. rewrite Hcb, Hcb'.
    apply deref_Some_inv in Hcb as (c & cell & -> & Hc & <-).
    apply deref_Some_inv in Hcb' as (c' & cell' & [= <-] & Hc' & <-).
    destruct (blocks_allocated _ Hok _ _ Hc) as [Hlt _].
    destruct (evolves_run after s) as [_ Hev].
    destruct (Hev c cell' Hc' Hlt) as (cell0 & Hc0 & [Hp _] & _).
    congruence. }
  intros Hp Hp'. pose proof (Hptr p Hp Hp') as Hpp.
  split; [done|].
  unfold eq_raw, compare. rewrite Hpp. split; [done|]. split; [done|].
  intros Hq Hq'. pose proof (Hptr q Hq Hq') as Hqq.
  unfold operator_ne, operator_eq, operator_lt, operator_le, operator_gt,
    operator_ge, compare_owned, compare.
  by rewrite Hpp, Hqq.
Qed.

Lemma comparison_is_stable_witness :
  let before := [call_make_owned virtual_destructor;
                 call_make_owned non_polymorphic] in
  let after := [call_unique_ptr (Some 0); call_delete 1; call_copy (Some 1)] in
  expired (Some 0) (run (run empty_heap before) after) = true ∧
  operator_lt (Some 0) (Some 1) (run (run empty_heap before) after) =
    operator_lt (Some 0) (Some 1) (run empty_heap before).
Proof.
  cbv zeta. split; [vm_compute; reflexivity|].
  destruct (comparison_is_stable
    [call_make_owned virtual_destructor; call_make_owned non_polymorphic]
    [call_unique_ptr (Some 0); call_delete 1; call_copy (Some 1)]
    (Some 0) (Some 1) 0) as (_ & _ & _ & H);
    [vm_compute; eauto | vm_compute; eauto |].
  destruct H as (_ & _ & _ & Hlt & _);
    [vm_compute; eauto | vm_compute; eauto |].
  exact Hlt.
Defined.

(** ** What the end of a shared handle frees *)

Lemma release_objects (h : shared_ptr) (s : heap) (a : address) :
  objects (release h s) !! a = objects s !! a ∨
  objects (release h s) !! a = None ∧
  ∃ c cell, h = Some c ∧ blocks s !! c = Some cell ∧
    _ptr (tuple cell) = a ∧ _acquired (tuple cell) = false ∧
    (use_count cell ≤ 1)%nat.
Proof.
  destruct h as [c|]; [|by left]. rewrite release_eq.
  destruct (blocks s !! c) as [cell|] eqn:Hc; [|by left].
  case_decide as Hn; [|by left].
  destruct (_acquired (tuple cell)) eqn:Hacq; [by left|].
  cbn [negb]. rewrite delete_object_eq. simpl.
  destruct (decide (_ptr (tuple cell) = a)) as [<-|Hne].
  - right. rewrite lookup_delete_eq. split; [done|]. by exists c, cell.
  - left. by rewrite lookup_delete_ne.
Qed.

(** The end of a shared handle frees a resource only when the handle is the
    last one on a block that points at the resource and is not acquired, and
    the block goes with it; every other resource stays as it is. *)
Theorem destruction_frees_only_its_own_resource
    (h : shared_ptr) (s : heap) (a : address) :
  heap_ok s →
  is_Some (objects s !! a) →
  objects (release h s) !! a = None →
  get_pointer h s = a ∧
  acquired h s = false ∧
  owned_pointer_use_count h s = 1%nat ∧
  deref h (release h s) = None.
Proof.
  intros Hok [o Ho] Hgone.
  destruct (release_objects h s a)
    as [Heq|(_ & c & cell & -> & Hc & Hptr & Hacq & Hn)]; [congruence|].
  destruct (blocks_allocated _ Hok _ _ Hc) as [_ Hheld].
  unfold get_pointer, acquired, owned_pointer_use_count.
  rewrite release_eq, !deref_Some, Hc. simpl.
  rewrite decide_True by done. simpl. rewrite lookup_delete_eq.
  split; [done|]. split; [done|]. split; [lia|done].
Qed.

Lemma destruction_frees_only_its_own_resource_witness :
  let s := snd (make_owned non_polymorphic empty_heap) in
  heap_ok s ∧
  is_Some (objects s !! 1) ∧ objects (release (Some 0) s) !! 1 = None ∧
  owned_pointer_use_count (Some 0) s = 1%nat.
Proof.
  cbv zeta.
  assert (H0 : heap_ok (snd (make_owned non_polymorphic empty_heap)))
    by apply (heap_ok_step empty_heap (call_make_owned non_polymorphic)
                heap_ok_empty).
  assert (H1 : is_Some (objects (snd (make_owned non_polymorphic empty_heap))
                          !! 1)) by (vm_compute; eauto).
  assert (H2 : objects (release (Some 0)
                 (snd (make_owned non_polymorphic empty_heap))) !! 1 = None)
    by (vm_compute; reflexivity).
  split; [exact H0|]. split; [exact H1|]. split; [exact H2|].
  by destruct (destruction_frees_only_its_own_resource _ _ _ H0 H1 H2)
    as (_ & _ & ? & _).
Defined.

Lemma all_acquired_step (a : address) (s : heap) (o : operation) :
  spares a o → all_acquired a s →
  all_acquired a (step s o) ∧
  (is_Some (objects (step s o) !! a) ↔ is_Some (objects s !! a)).
Proof.
  intros Ho [Ha Hacq].
  assert (Halter : ∀ f c,
    (∀ cell, _ptr (tuple (f cell)) = _ptr (tuple cell) ∧
             (_acquired (tuple cell) = true → _acquired (tuple (f cell)) = true)) →
    all_acquired a (with_blocks (alter f c) s)).
  { intros f c Hf. split; [done|]. simpl. intros c' cell'.
    rewrite lookup_alter. case_decide; [subst c'|by eauto].
    destruct (blocks s !! c) as [cell|] eqn:Hc; [|done].
    intros [= <-] Hp. destruct (Hf cell) as [Hfp Hfa].
    rewrite Hfp in Hp. eauto. }
  destruct o as [T|T|T u|T u|p|p|p|p|u]; simpl in *.
  - rewrite make_owned_eq. simpl. split; [split; [simpl; lia|simpl]|].
    + intros c cell. rewrite lookup_insert. case_decide; [|by eauto].
      intros [= <-]. simpl. intros Hp. exfalso. lia.
    + rewrite lookup_insert_ne by lia. done.
  - split; [split; [simpl; lia | done]|]. rewrite lookup_insert_ne by lia. done.
  - done.
  - unfold owned_pointer_from_link. simpl.
    destruct (back_reference T u s) as [c|] eqn:Hb.
    + rewrite (owned_pointer_raw_attach _ _ _ _ _ Hb). simpl.
      split; [|done]. split; [done|]. simpl. intros c' cell'.
      destruct (decide (c = c')) as [<-|Hne];
        [rewrite !lookup_alter_eq | rewrite !lookup_alter_ne by done; by eauto].
      destruct (blocks s !! c) as [cell|]; [|done]. by intros [= <-].
    + rewrite (owned_pointer_raw_fresh _ _ _ _ Hb). simpl.
      split; [split; [done|]|].
      * simpl. intros c cell. rewrite lookup_insert. case_decide; [|by eauto].
        by intros [= <-].
      * destruct (secret_of T u s) as [w|] eqn:Hw; [|done].
        apply secret_of_Some in Hw as (_ & _ & Hu).
        rewrite lookup_insert. case_decide; [subst u|done].
        rewrite Hu. split; eauto.
  - destruct p as [c|]; [|done]. split; [|done]. by apply Halter.
  - unfold unique_ptr. destruct (negb _); [|done].
    destruct (negb _); [|done].
    destruct p as [c|]; [|done]. split; [|done]. by apply Halter.
  - done.
  - split.
    + destruct p as [c|]; [|done]. rewrite release_eq.
      destruct (blocks s !! c) as [cell|] eqn:Hc; [|done].
      case_decide; [|by apply Halter].
      assert (Hdel : ∀ s0, all_acquired a s0 →
                all_acquired a (with_blocks (delete c) s0)).
      { intros s0 [? H0]. split; [done|]. simpl.
        intros c' cell' [_ Hc']%lookup_delete_Some. eauto. }
      apply Hdel. destruct (negb _); [|done].
      rewrite delete_object_eq. split; [done|]. simpl.
      intros c' cell'. rewrite lookup_mark_deleted. case_decide; [|by eauto].
      destruct (blocks s !! c') as [cell0|] eqn:Hc0; [|done].
      intros [= <-]. simpl. eauto.
    + destruct (release_objects p s a)
        as [->|(_ & c & cell & -> & Hc & Hp & Hf & _)]; [done|].
      rewrite (Hacq _ _ Hc Hp) in Hf. done.
  - rewrite delete_object_eq. simpl. split.
    + split; [done|]. simpl. intros c cell. rewrite lookup_mark_deleted.
      case_decide; [|by eauto].
      destruct (blocks s !! c) as [cell0|] eqn:Hc0; [|done].
      intros [= <-]. simpl. eauto.
    + by rewrite lookup_delete_ne.
Qed.

(** A resource whose every block is acquired is freed by nothing the
    shared handles do: whatever the client calls, short of deleting the
    resource itself or constructing a shared handle from a unique_ptr, the
    resource stays alive and its blocks stay acquired.  In particular it
    outlives all its shared handles. *)
Theorem acquired_resource_outlives_handles
    (a : address) (os : list operation) (s : heap) :
  all_acquired a s →
  Forall (spares a) os →
  all_acquired a (run s os) ∧
  (is_Some (objects (run s os) !! a) ↔ is_Some (objects s !! a)).
Proof.
  intros Hs Hos. revert s Hs.
  induction Hos as [|o os Ho Hos IH]; intros s Hs; [done|].
  destruct (all_acquired_step a s o Ho Hs) as [Hs1 Hlive1].
  destruct (IH _ Hs1) as [Hs2 Hlive2]. simpl.
  split; [done|]. by rewrite Hlive2.
Qed.

Lemma acquired_resource_outlives_handles_witness :
  let s := run empty_heap
             [call_make_owned virtual_destructor; call_copy (Some 0);
              call_unique_ptr (Some 0)] in
  let os := [call_destroy (Some 0); call_from_link polymorphic_only 1;
             call_destroy (Some 0); call_destroy (Some 0)] in
  all_acquired 1 s ∧ blocks (run s os) = ∅ ∧ is_Some (objects (run s os) !! 1).
Proof.
  cbv zeta.
  assert (Hs : all_acquired 1 (run empty_heap
             [call_make_owned virtual_destructor; call_copy (Some 0);
              call_unique_ptr (Some 0)])).
  { split; [vm_compute; reflexivity|]. intros c cell.
    destruct (decide (c = 0)) as [->|Hc].
    - vm_compute. by intros [= <-].
    - intros Hcell. exfalso. revert Hcell.
      change (blocks _) with
        (<[0 := mk_cell (mk_control_block 1 true false) 2]>
           (∅ : gmap N shared_cell)).
      by rewrite lookup_insert_ne, lookup_empty. }
  split; [exact Hs|]. split; [vm_compute; reflexivity|].
  apply (acquired_resource_outlives_handles 1
    [call_destroy (Some 0); call_from_link polymorphic_only 1;
     call_destroy (Some 0); call_destroy (Some 0)] _ Hs).
  - repeat (apply Forall_cons; split; [exact I|]). apply Forall_nil_2.
  - vm_compute. eauto.
Defined.

(** ** Counting the handles *)

Lemma with_blocks_id (f : gmap N shared_cell → gmap N shared_cell) (s : heap) :
  f (blocks s) = blocks s → with_blocks f s = s.
Proof. intros Hf. unfold with_blocks. rewrite Hf. by destruct s. Qed.

Lemma set_use_count_pred_S (cell : shared_cell) :
  set_use_count pred (set_use_count S cell) = cell.
Proof. by destruct cell. Qed.

(** A copy that is made and destroyed leaves the heap as it was. *)
Lemma copy_release (p : shared_ptr) (s : heap) :
  (∀ c cell, p = Some c → blocks s !! c = Some cell →
             (0 < use_count cell)%nat) →
  release p (snd (copy p s)) = s.
Proof.
  intros Hheld. destruct p as [c|]; [|done]. rewrite release_eq.
  cbn [copy snd with_blocks blocks]. rewrite lookup_alter_eq.
  destruct (blocks s !! c) as [cell|] eqn:Hc; simpl.
  - pose proof (Hheld c cell eq_refl Hc). rewrite decide_False by lia.
    unfold with_blocks. simpl. rewrite alter_alter_eq.
    rewrite alter_id; [by destruct s|].
    intros x _. apply set_use_count_pred_S.
  - apply with_blocks_id. by apply alter_id'.
Qed.

Lemma use_count_copy (p : shared_ptr) (s : heap) :
  is_Some (deref p s) →
  owned_pointer_use_count p (snd (copy p s)) =
    S (owned_pointer_use_count p s) ∧
  is_Some (deref p (snd (copy p s))).
Proof.
  intros [cb Hcb].
  apply deref_Some_inv in Hcb as (c & cell & -> & Hc & _).
  unfold owned_pointer_use_count. rewrite deref_Some. simpl.
  rewrite lookup_alter_eq, Hc. simpl. eauto.
Qed.

(** [use_count] counts the handles: it is 1 for the handle [make_owned]
    returns, every copy adds one, and when the copies are destroyed again
    the heap is the one before the copies, count, flags and resources. *)
Theorem use_count_counts_copies (p : shared_ptr) (s : heap) (n : nat) :
  is_Some (deref p s) →
  (∀ T s0, owned_pointer_use_count (fst (make_owned T s0))
             (snd (make_owned T s0)) = 1%nat) ∧
  owned_pointer_use_count p (run s (replicate n (call_copy p))) =
    (owned_pointer_use_count p s + n)%nat ∧
  objects (run s (replicate n (call_copy p))) = objects s ∧
  ((0 < owned_pointer_use_count p s)%nat →
   run s (replicate n (call_copy p) ++ replicate n (call_destroy p)) = s).
Proof.
  intros Hp. split.
  { intros T s0. rewrite make_owned_eq. simpl.
    unfold owned_pointer_use_count. by rewrite lookup_insert_eq. }
  revert s Hp. induction n as [|n IH]; intros s Hp.
  { simpl. split; [lia|]. done. }
  destruct (use_count_copy p s Hp) as [Hcount Hp1].
  destruct (IH _ Hp1) as (IH1 & IH2 & IH3).
  change (replicate (S n) (call_copy p))
    with (call_copy p :: replicate n (call_copy p)).
  unfold run in *. cbn [foldl app step]. unfold owned_pointer_copy.
  split; [rewrite IH1, Hcount; lia|].
  split; [rewrite IH2; by destruct p|].
  intros Hpos. rewrite replicate_S_end, app_assoc, foldl_app, IH3 by lia.
  cbn [foldl step]. apply copy_release. intros c cell -> Hc.
  unfold owned_pointer_use_count in Hpos. by rewrite Hc in Hpos.
Qed.

Lemma use_count_counts_copies_witness :
  let s := snd (make_owned virtual_destructor empty_heap) in
  is_Some (deref (Some 0) s) ∧
  owned_pointer_use_count (Some 0) (run s (replicate 9 (call_copy (Some 0)))) =
    10%nat.
Proof.
  cbv zeta.
  assert (Hp : is_Some (deref (Some 0)
                 (snd (make_owned virtual_destructor empty_heap))))
    by (vm_compute; eauto).
  split; [exact Hp|].
  destruct (use_count_counts_copies (Some 0) _ 9 Hp) as (_ & Hn & _).
  exact Hn.
Defined.

(** ** Assignment *)

Lemma release_other (c d : N) (s : heap) (cell : shared_cell) :
  c ≠ d → blocks s !! d = Some cell →
  ∃ cell', blocks (release (Some c) s) !! d = Some cell' ∧
    _ptr (tuple cell') = _ptr (tuple cell) ∧
    _acquired (tuple cell') = _acquired (tuple cell) ∧
    use_count cell' = use_count cell.
Proof.
  intros Hne Hd. rewrite release_eq.
  destruct (blocks s !! c) as [cellc|] eqn:Hc; [|eauto].
  case_decide.
  - simpl. rewrite lookup_delete_ne by done.
    destruct (negb _); [|eauto].
    rewrite delete_object_eq. simpl. rewrite lookup_mark_deleted, Hd.
    case_decide; simpl; eauto.
  - simpl. rewrite lookup_alter_ne by done. eauto.
Qed.

Lemma lockable_alter_S (w : weak_ptr) (d : N) (s : heap) :
  heap_ok s →
  lockable w (with_blocks (alter (set_use_count S) d) s) = lockable w s.
Proof.
  intros Hok. destruct w as [x|]; [|done]. unfold lockable. simpl.
  rewrite lookup_alter. case_decide; [subst x|done].
  destruct (blocks s !! d) as [cell|] eqn:Hd; [|done]. simpl.
  destruct (blocks_allocated _ Hok _ _ Hd) as [_ Hcount].
  rewrite !decide_True by lia. done.
Qed.

(** A reference taken on block [d] does not change what the end of a handle
    on another block does. *)
Lemma release_copy_commute (c d : N) (s : heap) :
  c ≠ d → heap_ok s →
  release (Some c) (with_blocks (alter (set_use_count S) d) s) =
  with_blocks (alter (set_use_count S) d) (release (Some c) s).
Proof.
  intros Hne Hok. rewrite !release_eq. simpl.
  rewrite lookup_alter_ne by done.
  destruct (blocks s !! c) as [cell|] eqn:Hc; [|done].
  case_decide.
  - destruct (_acquired (tuple cell)); cbn [negb].
    + unfold with_blocks. simpl. by rewrite delete_alter_ne.
    + rewrite !delete_object_eq. unfold with_blocks, notified. simpl.
      assert (Hn : match objects s !! _ptr (tuple cell) with
                   | Some (destruction_notify_object w) =>
                       lockable w (with_blocks (alter (set_use_count S) d) s)
                   | _ => None
                   end = notified (_ptr (tuple cell)) s).
      { unfold notified. destruct (objects s !! _) as [[|w]|]; try done.
        by apply lockable_alter_S. }
      unfold with_blocks in Hn. rewrite Hn. f_equal.
      rewrite <- delete_alter_ne by done. f_equal.
      fold (notified (_ptr (tuple cell)) s).
      destruct (notified (_ptr (tuple cell)) s) as [x|]; simpl; [|done].
      destruct (decide (x = d)) as [->|Hx]; [|by apply alter_alter_ne].
      rewrite !alter_alter_eq. apply alter_ext. by intros [].
  - unfold with_blocks. simpl. by rewrite alter_alter_ne.
Qed.

(** The copy assignment [this = pointee]: [this] becomes a handle on the
    block of [pointee], with its address and its acquired flag; the block
    counts one handle more, unless [this] was on that block already, and then
    the heap is as before: the assignment of a handle to itself, or to its
    copy, frees nothing even when it is the only handle. *)
Theorem copy_assignment (this pointee : shared_ptr) (s : heap) :
  heap_ok s →
  is_Some (deref pointee s) →
  let '(r, s1) := operator_assign this pointee s in
  r = pointee ∧
  get_pointer r s1 = get_pointer pointee s ∧
  acquired r s1 = acquired pointee s ∧
  owned_pointer_use_count r s1 =
    (if decide (this = pointee) then owned_pointer_use_count pointee s
     else S (owned_pointer_use_count pointee s)) ∧
  (this = pointee → s1 = s) ∧
  s1 = run s [call_copy pointee; call_destroy this].
Proof.
  intros Hok [cb Hcb].
  apply deref_Some_inv in Hcb as (d & cell & -> & Hd & _).
  unfold operator_assign.
  assert (Hround : release (Some d) (snd (copy (Some d) s)) = s).
  { apply copy_release. intros c cell0 [= <-] Hc.
    by destruct (blocks_allocated _ Hok _ _ Hc). }
  cbn [copy snd] in Hround |- *.
  case_decide as Hthis.
  - subst this. rewrite Hround. repeat split; try done.
  - set (s0 := with_blocks (alter (set_use_count S) d) s).
    assert (Hd0 : blocks s0 !! d = Some (set_use_count S cell))
      by (unfold s0; simpl; by rewrite lookup_alter_eq, Hd).
    assert (∃ cell', blocks (release this s0) !! d = Some cell' ∧
              _ptr (tuple cell') = _ptr (tuple cell) ∧
              _acquired (tuple cell') = _acquired (tuple cell) ∧
              use_count cell' = S (use_count cell))
      as (cell' & Hd' & Hp & Ha & Hn).
    { destruct this as [c|]; [|by exists (set_use_count S cell)].
      apply (release_other c d s0 _) in Hd0; [|congruence].
      destruct Hd0 as (cell' & ? & ? & ? & ?). by exists cell'. }
    unfold get_pointer, acquired, owned_pointer_use_count.
    rewrite !deref_Some, Hd', Hd. simpl.
    repeat split; try done; congruence.
Qed.

Lemma copy_assignment_witness :
  let s := snd (make_owned non_polymorphic empty_heap) in
  heap_ok s ∧ is_Some (deref (Some 0) s) ∧
  operator_assign (Some 0) (Some 0) s = (Some 0, s).
Proof.
  cbv zeta.
  assert (Hok : heap_ok (snd (make_owned non_polymorphic empty_heap)))
    by apply (heap_ok_step empty_heap (call_make_owned non_polymorphic)
                heap_ok_empty).
  assert (Hp : is_Some (deref (Some 0)
                 (snd (make_owned non_polymorphic empty_heap))))
    by (vm_compute; eauto).
  split; [exact Hok|]. split; [exact Hp|].
  pose proof (copy_assignment (Some 0) (Some 0) _ Hok Hp) as H.
  destruct (operator_assign (Some 0) (Some 0)
              (snd (make_owned non_polymorphic empty_heap))) as [r s1].
  destruct H as (-> & _ & _ & _ & Hs & _). by rewrite (Hs eq_refl).
Defined.

(** The move assignment [this = std::move(p)] leaves [this] and the heap as
    the copy assignment [this = p] followed by the end of [p] does, and
    leaves [p] empty. *)
Theorem move_assignment_is_copy_then_destruction
    (this p : shared_ptr) (s : heap) :
  heap_ok s →
  let '(r, rest, s1) := operator_move_assign this p s in
  r = fst (operator_assign this p s) ∧
  rest = owned_pointer_default ∧
  s1 = release p (snd (operator_assign this p s)) ∧
  (get_pointer rest s1 = nullptr ∧ owned_pointer_use_count rest s1 = 0%nat).
Proof.
  intros Hok. unfold operator_move_assign, operator_assign.
  destruct p as [d|]; [|done]. cbn [copy fst snd].
  split; [done|]. split; [done|]. split; [|done].
  destruct this as [c|].
  - destruct (decide (c = d)) as [->|Hne].
    + f_equal. symmetry.
      apply (copy_release (Some d)). intros c cell [= <-] Hc.
      by destruct (blocks_allocated _ Hok _ _ Hc).
    + rewrite release_copy_commute by done. symmetry.
      apply (copy_release (Some d)). intros c0 cell [= <-] Hc.
      pose proof (heap_ok_release (Some c) s Hok) as Hok'.
      by destruct (blocks_allocated _ Hok' _ _ Hc).
  - cbn [release]. symmetry.
    apply (copy_release (Some d)). intros c cell [= <-] Hc.
    by destruct (blocks_allocated _ Hok _ _ Hc).
Qed.

Lemma move_assignment_is_copy_then_destruction_witness :
  let s := run empty_heap [call_make_owned virtual_destructor;
                           call_make_owned non_polymorphic] in
  heap_ok s ∧
  snd (operator_move_assign (Some 0) (Some 1) s) =
    release (Some 1) (snd (operator_assign (Some 0) (Some 1) s)) ∧
  objects (snd (operator_move_assign (Some 0) (Some 1) s)) !! 1 = None.
Proof.
  cbv zeta.
  assert (Hok : heap_ok (run empty_heap
            [call_make_owned virtual_destructor;
             call_make_owned non_polymorphic]))
    by apply heap_ok_run, heap_ok_empty.
  split; [exact Hok|]. split; [|vm_compute; reflexivity].
  pose proof (move_assignment_is_copy_then_destruction (Some 0) (Some 1) _ Hok)
    as H.
  destruct (operator_move_assign (Some 0) (Some 1) _) as [[r rest] s1].
  by destruct H as (_ & _ & -> & _).
Defined.

(** ** A handle made from a unique_ptr *)

Lemma unique_ptr_hands_back (p : shared_ptr) (s : heap) (u : address) :
  get_pointer p s = u → acquired p s = false →
  fst (unique_ptr p s) = returns u.
Proof.
  intros Hu Ha. unfold unique_ptr. rewrite Hu, Ha.
  destruct (N.eqb_spec u nullptr) as [->|]; simpl; [done|].
  by rewrite get_pointer_store_acquired, Hu.
Qed.

Lemma owned_pointer_raw_objects (T : element_type) (p : address) (b : bool)
    (s : heap) (a : address) :
  is_Some (objects (snd (owned_pointer_raw T p b s)) !! a) ↔
  is_Some (objects s !! a).
Proof.
  destruct (back_reference T p s) as [c|] eqn:Hb.
  - by rewrite (owned_pointer_raw_attach _ _ _ _ _ Hb).
  - rewrite (owned_pointer_raw_fresh _ _ _ _ Hb). simpl.
    destruct (secret_of T p s) as [w|] eqn:Hs; [|done].
    apply secret_of_Some in Hs as (_ & _ & Hp).
    destruct (decide (p = a)) as [->|].
    + rewrite lookup_insert_eq, Hp. split; eauto.
    + by rewrite lookup_insert_ne.
Qed.

Lemma owned_pointer_raw_delete_events (T : element_type) (p : address)
    (b : bool) (s : heap) :
  delete_events (snd (owned_pointer_raw T p b s)) = delete_events s.
Proof.
  destruct (back_reference T p s) as [c|] eqn:Hb.
  - by rewrite (owned_pointer_raw_attach _ _ _ _ _ Hb).
  - by rewrite (owned_pointer_raw_fresh _ _ _ _ Hb).
Qed.

(** Whatever the client has called and whatever a unique_ptr holds, the
    handle [owned_pointer(std::unique_ptr<T>)] makes of it is neither
    acquired nor expired.  When the constructor allocates a block, the handle
    points at what the unique_ptr held; when it attaches to the live block
    the secret of the resource names, at the address that block has kept.
    [get] returns that address and [unique_ptr()] hands it back without an
    exception.  The constructor frees no resource and runs no
    [delete_event]. *)
Theorem wrapped_unique_ptr_is_handed_back
    (os : list operation) (T : element_type) (u : address) :
  let s := run empty_heap os in
  let kept :=
    match back_reference T u s with
    | Some c => get_pointer (Some c) s
    | None => u
    end in
  let '(p, s1) := owned_pointer_from_unique_ptr T u s in
  get_pointer p s1 = kept ∧
  acquired p s1 = false ∧
  expired p s1 = false ∧
  get p s1 = returns kept ∧
  fst (unique_ptr p s1) = returns kept ∧
  acquired p (snd (unique_ptr p s1)) = negb (kept =? nullptr) ∧
  (∀ a, is_Some (objects s1 !! a) ↔ is_Some (objects s !! a)) ∧
  delete_events s1 = delete_events s.
Proof.
  intros s kept.
  assert (Hok : heap_ok s) by (apply heap_ok_run; apply heap_ok_empty).
  assert (Hm : marks_ok s)
    by (apply marks_ok_run; [apply heap_ok_empty | apply marks_ok_empty]).
  unfold owned_pointer_from_unique_ptr. cbv zeta.
  pose proof (owned_pointer_raw_objects T u false s) as Hobj.
  pose proof (owned_pointer_raw_delete_events T u false s) as Hev.
  pose proof (owned_pointer_raw_acquired T u false s) as Hacq.
  assert (Hcb : ∀ cb, deref (fst (owned_pointer_raw T u false s))
                        (snd (owned_pointer_raw T u false s)) = Some cb →
                      _ptr cb = kept ∧ _deleted cb = false).
  { unfold kept. destruct (back_reference T u s) as [c|] eqn:Hb.
    - rewrite (owned_pointer_raw_attach _ _ _ _ _ Hb). cbn [fst snd].
      apply back_reference_Some in Hb as (_ & _ & Hu & cell & Hc & _).
      unfold get_pointer. rewrite !deref_Some. simpl.
      rewrite !lookup_alter_eq, Hc. simpl.
      intros cb [= <-]. simpl. split; [done|].
      destruct (_deleted (tuple cell)) eqn:Hdel; [|done].
      destruct (deleted_means_freed _ Hm _ _ Hc Hdel) as [_ Hfree].
      rewrite (secret_points_home _ Hm _ _ _ Hu Hc) in Hfree. congruence.
    - rewrite (owned_pointer_raw_fresh _ _ _ _ Hb). cbn [fst snd].
      rewrite deref_Some. simpl. rewrite lookup_insert_eq. simpl.
      by intros cb [= <-]. }
  destruct (owned_pointer_raw T u false s) as [p s1]. cbn [fst snd] in *.
  destruct Hacq as (_ & [cb Hp] & Hacq).
  destruct (Hcb cb Hp) as [Hptr Hdel].
  assert (Hget : get_pointer p s1 = kept)
    by (unfold get_pointer; by rewrite Hp).
  assert (Hexp : expired p s1 = false) by (unfold expired; by rewrite Hp).
  split; [done|]. split; [done|]. split; [done|].
  split.
  { unfold get, throw_if_is_destroyed_and_has_virtual_dtor.
    by rewrite Hexp, Hget. }
  split; [by apply unique_ptr_hands_back|].
  split; [|done].
  unfold unique_ptr. rewrite Hget, Hacq.
  destruct (kept =? nullptr); simpl; [done|].
  by apply acquired_store_acquired.
Qed.

(** ** The calls that free nothing *)

Lemma ends_nothing_step (s : heap) (o : operation) :
  ends_nothing o →
  (∀ a, is_Some (objects s !! a) → is_Some (objects (step s o) !! a)) ∧
  (∀ c, is_Some (blocks s !! c) → is_Some (blocks (step s o) !! c)) ∧
  delete_events (step s o) = delete_events s.
Proof.
  assert (Hraw : ∀ T p b,
    (∀ c, is_Some (blocks s !! c) →
          is_Some (blocks (snd (owned_pointer_raw T p b s)) !! c))).
  { intros T p b c [cell Hc].
    destruct (back_reference T p s) as [c'|] eqn:Hb.
    - rewrite (owned_pointer_raw_attach _ _ _ _ _ Hb). simpl.
      rewrite !lookup_alter_is_Some. eauto.
    - rewrite (owned_pointer_raw_fresh _ _ _ _ Hb). simpl.
      destruct (decide (next_block s = c)) as [->|].
      + rewrite lookup_insert_eq. eauto.
      + rewrite lookup_insert_ne by done. eauto. }
  destruct o as [T|T|T u|T u|p|p|p|p|u]; simpl; try done; intros _.
  - rewrite make_owned_eq. simpl. split; [|split; [|done]].
    + intros a [o Ha]. destruct (decide (next_object s = a)) as [->|].
      * rewrite lookup_insert_eq. eauto.
      * rewrite lookup_insert_ne by done. eauto.
    + intros c [cell Hc]. destruct (decide (next_block s = c)) as [->|].
      * rewrite lookup_insert_eq. eauto.
      * rewrite lookup_insert_ne by done. eauto.
  - split; [|done].
    intros a [o Ha]. destruct (decide (next_object s = a)) as [->|].
    + rewrite lookup_insert_eq. eauto.
    + rewrite lookup_insert_ne by done. eauto.
  - unfold owned_pointer_from_unique_ptr. cbv zeta.
    split; [|split].
    + intros a. apply owned_pointer_raw_objects.
    + apply Hraw.
    + apply owned_pointer_raw_delete_events.
  - unfold owned_pointer_from_link. cbv zeta.
    split; [|split].
    + intros a. apply owned_pointer_raw_objects.
    + apply Hraw.
    + apply owned_pointer_raw_delete_events.
  - destruct p as [c|]; [|done]. simpl. split; [done|]. split; [|done].
    intros c' Hc. by rewrite lookup_alter_is_Some.
  - unfold unique_ptr. destruct (negb _); [|done].
    destruct (negb _); [|done]. destruct p as [c|]; [|done]. simpl.
    split; [done|]. split; [|done].
    intros c' Hc. by rewrite lookup_alter_is_Some.
Qed.

(** A resource and a control block end only where a shared handle or a
    unique_ptr ends: through any sequence of the other calls ([make_owned],
    [new], the constructors from a unique_ptr and from a link, copies,
    [unique_ptr()], [get]) every resource and every block of the heap stays,
    and [delete_event] is not called. *)
Theorem nothing_ends_without_a_destructor (os : list operation) (s : heap) :
  Forall ends_nothing os →
  (∀ a, is_Some (objects s !! a) → is_Some (objects (run s os) !! a)) ∧
  (∀ c, is_Some (blocks s !! c) → is_Some (blocks (run s os) !! c)) ∧
  delete_events (run s os) = delete_events s.
Proof.
  revert s. induction os as [|o os IH]; intros s Hos; [done|].
  apply Forall_cons in Hos as [Ho Hos].
  destruct (ends_nothing_step s o Ho) as (H1 & H2 & H3).
  destruct (IH (step s o) Hos) as (IH1 & IH2 & IH3).
  change (run s (o :: os)) with (run (step s o) os).
  split; [|split].
  - intros a Ha. by apply IH1, H1.
  - intros c Hc. by apply IH2, H2.
  - by rewrite IH3.
Qed.

Lemma nothing_ends_without_a_destructor_witness :
  let os := [call_make_owned virtual_destructor; call_unique_ptr (Some 0);
             call_from_link polymorphic_only 1; call_copy (Some 0)] in
  Forall ends_nothing os ∧
  delete_events (run empty_heap os) = delete_events empty_heap.
Proof.
  cbv zeta.
  assert (Hos : Forall ends_nothing
            [call_make_owned virtual_destructor; call_unique_ptr (Some 0);
             call_from_link polymorphic_only 1; call_copy (Some 0)])
    by (repeat (apply Forall_cons; split; [exact I|]); apply Forall_nil_2).
  split; [exact Hos|].
  by destruct (nothing_ends_without_a_destructor _ empty_heap Hos)
    as (_ & _ & ?).
Defined.

(** ** What make_owned makes *)



(** ** Who notices a deletion *)

(** A well-typed client deletes the live resource a handle points at, as
    the unique_ptr that holds it does.  The resource is freed and the handle
    keeps its address and its acquired flag.  When the resource has a secret,
    whichever constructor made the handle, the handle is expired from then
    on and [get] throws; when it has none, the handle does not notice:
    [expired] stays false and [get] returns the address of the freed
    resource. *)
Theorem deletion_is_noticed_through_the_secret_only
    (os : list operation) (p : shared_ptr) (o : object) :
  let s := run empty_heap os in
  let a := get_pointer p s in
  well_typed_run empty_heap os →
  objects s !! a = Some o →
  let s1 := delete_object a s in
  objects s1 !! a = None ∧
  get_pointer p s1 = a ∧
  acquired p s1 = acquired p s ∧
  owned_pointer_use_count p s1 = owned_pointer_use_count p s ∧
  expired p s = false ∧
  match o with
  | destruction_notify_object _ =>
      expired p s1 = true ∧ get p s1 = throws ptr_is_already_deleted ∧
      delete_events s1 = a :: delete_events s
  | plain_object =>
      expired p s1 = false ∧ get p s1 = returns a ∧
      delete_events s1 = delete_events s
  end.
Proof.
  intros s a Hwt Ho s1.
  assert (Hr : reachable s)
    by (apply reachable_run; [apply reachable_empty | done]).
  pose proof (reachable_heap_ok _ Hr) as Hok.
  pose proof (reachable_tracked _ Hr) as Htr.
  assert (Hm : marks_ok s)
    by (apply marks_ok_run; [apply heap_ok_empty | apply marks_ok_empty]).
  assert (Hnn : a ≠ nullptr)
    by (apply (objects_allocated _ Hok) in Ho; unfold nullptr in *; lia).
  destruct (get_pointer_nonnull_deref p s Hnn) as [cb Hcb].
  apply deref_Some_inv in Hcb as (c & cell & -> & Hc & <-).
  assert (Ha : _ptr (tuple cell) = a)
    by (unfold a, get_pointer; by rewrite deref_Some, Hc).
  destruct (blocks_allocated _ Hok _ _ Hc) as [_ Hheld].
  assert (Hlive : _deleted (tuple cell) = false).
  { destruct (_deleted (tuple cell)) eqn:Hdel; [|done].
    destruct (deleted_means_freed _ Hm _ _ Hc Hdel) as [_ Hfree].
    rewrite Ha in Hfree. congruence. }
  assert (Hnot : notified a s =
                 match o with
                 | destruction_notify_object _ => Some c
                 | plain_object => None
                 end).
  { unfold notified. rewrite Ho. destruct o as [|w]; [done|].
    rewrite <- Ha in Ho. rewrite (secret_names_block _ Htr _ _ _ Hc Ho).
    apply lockable_Some. eauto. }
  unfold s1. rewrite delete_object_eq.
  unfold expired, get, throw_if_is_destroyed_and_has_virtual_dtor, expired,
    get_pointer, acquired, owned_pointer_use_count, fired.
  rewrite !deref_Some. simpl.
  rewrite lookup_delete_eq, lookup_mark_deleted, Hnot, Ho, Hc.
  destruct o as [|w]; simpl.
  - rewrite Hlive, Ha. done.
  - rewrite decide_True by done. simpl. rewrite Hlive, Ha. done.
Qed.

Lemma deletion_is_noticed_through_the_secret_only_witness :
  let os := [call_new polymorphic_only;
             call_from_unique_ptr polymorphic_only 1] in
  let s := run empty_heap os in
  well_typed_run empty_heap os ∧
  objects s !! get_pointer (Some 0) s = Some plain_object ∧
  get (Some 0) (delete_object (get_pointer (Some 0) s) s) =
    returns (get_pointer (Some 0) s).
Proof.
  cbv zeta.
  assert (Hwt : well_typed_run empty_heap
            [call_new polymorphic_only;
             call_from_unique_ptr polymorphic_only 1]).
  { simpl. split; [done|]. split; [|done].
    split; [right; vm_compute; eauto | vm_compute; done]. }
  assert (Ho : objects (run empty_heap
                 [call_new polymorphic_only;
                  call_from_unique_ptr polymorphic_only 1]) !!
               get_pointer (Some 0) (run empty_heap
                 [call_new polymorphic_only;
                  call_from_unique_ptr polymorphic_only 1]) =
               Some plain_object)
    by (vm_compute; reflexivity).
  split; [exact Hwt|]. split; [exact Ho|].
  pose proof (deletion_is_noticed_through_the_secret_only _ (Some 0) _ Hwt Ho)
    as H.
  cbv zeta in H. by destruct H as (_ & _ & _ & _ & _ & _ & H & _).
Defined.

(** ** A handle made from a link *)

(** The handle [owned_pointer(link(u))] makes never owns what [u] holds:
    [unique_ptr()] through it throws unless it is null, and when it ends, no
    resource is freed and no [delete_event] runs; the handles the client had
    keep their address, their count and their deleted flag, and lose no
    acquired flag.  When the constructor attached to no older block, the
    blocks are the ones from before the handle was made. *)
Theorem link_handle_never_owns
    (T : element_type) (u : address) (q : shared_ptr) (s : heap) :
  heap_ok s →
  let '(r, s1) := owned_pointer_from_link T (link u) s in
  let s2 := release r s1 in
  (get_pointer r s1 ≠ nullptr →
   unique_ptr r s1 = (throws unique_ptr_already_acquired, s1)) ∧
  (∀ a, is_Some (objects s2 !! a) ↔ is_Some (objects s !! a)) ∧
  delete_events s2 = delete_events s ∧
  (is_Some (deref q s) →
   get_pointer q s2 = get_pointer q s ∧
   expired q s2 = expired q s ∧
   owned_pointer_use_count q s2 = owned_pointer_use_count q s ∧
   (acquired q s = true → acquired q s2 = true)) ∧
  (back_reference T u s = None → blocks s2 = blocks s).
Proof.
  intros Hok. unfold owned_pointer_from_link, link. cbn [link_ptr]. cbv zeta.
  pose proof (owned_pointer_raw_objects T u true s) as Hobj.
  pose proof (owned_pointer_raw_delete_events T u true s) as Hev.
  pose proof (owned_pointer_raw_acquired T u true s) as Hacq.
  destruct (back_reference T u s) as [c|] eqn:Hb.
  - rewrite (owned_pointer_raw_attach _ _ _ _ _ Hb) in *.
    cbn [snd] in Hobj, Hev.
    apply back_reference_Some in Hb as (_ & _ & _ & cell & Hc & Hheld).
    set (s1 := with_blocks _ (with_blocks _ s)) in *.
    assert (Hc1 : blocks s1 !! c =
                  Some (set_tuple (set_acquired true) (set_use_count S cell)))
      by (unfold s1; simpl; by rewrite !lookup_alter_eq, Hc).
    assert (Hs2 : release (Some c) s1 =
                  with_blocks (alter (set_use_count pred) c) s1).
    { rewrite release_eq, Hc1. simpl. by rewrite decide_False by lia. }
    rewrite Hs2. destruct Hacq as (_ & _ & Hacq).
    split.
    { intros Hnn. unfold unique_ptr. rewrite Hacq.
      by destruct (N.eqb_spec (get_pointer (Some c) s1) nullptr). }
    split; [done|]. split; [done|]. split; [|done].
    intros [cb Hq].
    apply deref_Some_inv in Hq as (d & celld & -> & Hd & <-).
    unfold get_pointer, expired, acquired, owned_pointer_use_count.
    rewrite !deref_Some. cbn [with_blocks blocks].
    destruct (decide (d = c)) as [->|Hne].
    + rewrite lookup_alter_eq, Hc1, Hd. simpl. simplify_eq. done.
    + rewrite lookup_alter_ne by done. unfold s1. simpl.
      rewrite !lookup_alter_ne by done. rewrite Hd. done.
  - rewrite (owned_pointer_raw_fresh _ _ _ _ Hb) in *.
    cbn [snd] in Hobj, Hev.
    set (s1 := mk_heap _ _ _ _ _) in *.
    assert (Hfresh : blocks s !! next_block s = None).
    { destruct (blocks s !! next_block s) as [cell|] eqn:Hc; [|done].
      apply (blocks_allocated _ Hok) in Hc. lia. }
    assert (Hs2 : release (Some (next_block s)) s1 =
                  with_blocks (delete (next_block s)) s1).
    { rewrite release_eq. unfold s1 at 1. simpl.
      rewrite lookup_insert_eq. simpl. done. }
    rewrite Hs2. destruct Hacq as (_ & _ & Hacq).
    assert (Hblocks : blocks (with_blocks (delete (next_block s)) s1) =
                      blocks s).
    { unfold s1. simpl. rewrite delete_insert_eq. by apply delete_id. }
    split.
    { intros Hnn. unfold unique_ptr. rewrite Hacq.
      by destruct (N.eqb_spec (get_pointer (Some (next_block s)) s1) nullptr). }
    split; [done|]. split; [done|]. split; [|done].
    intros [cb Hq].
    apply deref_Some_inv in Hq as (d & celld & -> & Hd & <-).
    unfold get_pointer, expired, acquired, owned_pointer_use_count.
    rewrite !deref_Some, Hblocks. done.
Qed.

Lemma link_handle_never_owns_witness :
  let s := run empty_heap [call_make_owned non_polymorphic;
                           call_unique_ptr (Some 0)] in
  heap_ok s ∧
  blocks (release (fst (owned_pointer_from_link non_polymorphic (link 1) s))
            (snd (owned_pointer_from_link non_polymorphic (link 1) s))) =
  blocks s.
Proof.
  cbv zeta.
  assert (Hok : heap_ok (run empty_heap [call_make_owned non_polymorphic;
                                         call_unique_ptr (Some 0)]))
    by apply heap_ok_run, heap_ok_empty.
  split; [exact Hok|].
  pose proof (link_handle_never_owns non_polymorphic 1 None _ Hok) as H.
  destruct (owned_pointer_from_link non_polymorphic (link 1) _) as [r s1].
  cbv zeta in H. destruct H as (_ & _ & _ & _ & H).
  apply H. reflexivity.
Defined.

(** ** Dereferencing *)

Lemma delete_object_blocks (a : address) (s : heap) (d : N) :
  blocks (delete_object a s) !! d =
    if decide (notified a s = Some d)
    then set_tuple (set_deleted true) <$> blocks s !! d
    else blocks s !! d.
Proof. rewrite delete_object_eq. simpl. apply lookup_mark_deleted. Qed.

Lemma delete_object_notified (a : address) (s : heap) (c : N) :
  notified a s = Some c → expired (Some c) (delete_object a s) = true.
Proof.
  intros Hn. pose proof Hn as (_ & cell & Hc & _)%notified_Some.
  unfold expired. rewrite deref_Some, delete_object_blocks.
  rewrite decide_True by done. by rewrite Hc.
Qed.




(** ** Who notices the destruction of a resource with a secret *)

(** The deletion of [a] marks the block its secret locks and no other, and
    the mark stays. *)
Lemma delete_object_observed
    (a : address) (s : heap) (q : shared_ptr) (later : list operation) :
  heap_ok s → is_Some (deref q s) →
  let s' := delete_object a s in
  (expired q s' = true ↔ q = notified a s ∨ expired q s = true) ∧
  (q = notified a s →
   expired q s' = true ∧
   get q s' = throws ptr_is_already_deleted ∧
   operator_arrow q s' = throws ptr_is_already_deleted ∧
   operator_star q s' = Some (throws ptr_is_already_deleted) ∧
   (is_Some (deref q (run s' later)) →
    expired q (run s' later) = true ∧
    get q (run s' later) = throws ptr_is_already_deleted ∧
    operator_arrow q (run s' later) = throws ptr_is_already_deleted ∧
    operator_star q (run s' later) = Some (throws ptr_is_already_deleted))).
Proof.
  intros Hok [cb Hq] s'.
  apply deref_Some_inv in Hq as (d & cell & -> & Hd & <-).
  destruct (blocks_allocated _ Hok _ _ Hd) as [Hlt _].
  assert (Hd' : blocks s' !! d =
            if decide (notified a s = Some d)
            then Some (set_tuple (set_deleted true) cell) else Some cell)
    by (unfold s'; rewrite delete_object_blocks, Hd; by case_decide).
  split.
  { unfold expired. rewrite !deref_Some, Hd', Hd.
    case_decide as Hn; simpl.
    - split; [by left | done].
    - split; [by right | intros [?|?]; congruence]. }
  intros Hn. symmetry in Hn.
  assert (He : expired (Some d) s' = true) by by apply delete_object_notified.
  split; [done|].
  destruct (expired_throws _ _ He) as (? & ? & ?).
  do 3 (split; [done|]).
  intros [cb Hcb].
  apply deref_Some_inv in Hcb as (d0 & cell2 & [= <-] & Hcell2 & <-).
  assert (expired (Some d) (run s' later) = true) as He2.
  { destruct (evolves_run later s') as [_ Hev].
    destruct (Hev d cell2 Hcell2) as (cell' & Hcell' & [_ Hdel] & _).
    - unfold s'. rewrite delete_object_eq. simpl. done.
    - rewrite Hd', decide_True in Hcell' by done. injection Hcell' as <-.
      unfold expired. rewrite deref_Some, Hcell2. simpl. by apply Hdel. }
  split; [done|]. by apply expired_throws.
Qed.

(** A handle made of the pointer through a polymorphic type is on the block
    the secret locks from then on: the block it attached to, or the new one
    it pointed the secret at. *)
Lemma owned_pointer_raw_notified
    (T : element_type) (a : address) (acq : bool) (s : heap) (w : weak_ptr) :
  is_polymorphic T = true → a ≠ nullptr →
  objects s !! a = Some (destruction_notify_object w) →
  let '(r, s1) := owned_pointer_raw T a acq s in
  notified a s1 = r ∧ is_Some (deref r s1) ∧ is_Some (objects s1 !! a).
Proof.
  intros HT Ha Ho.
  pose proof (owned_pointer_raw_acquired T a acq s) as Hacq.
  pose proof (owned_pointer_raw_objects T a acq s a) as Hobj.
  destruct (back_reference T a s) as [c|] eqn:Hb.
  - rewrite (owned_pointer_raw_attach _ _ _ _ _ Hb) in *.
    destruct Hacq as (_ & Hd & _). cbn [snd] in Hobj.
    split; [|split; [done | apply Hobj; eauto]].
    apply back_reference_Some in Hb as (_ & _ & Ho' & cell & Hc & Hn).
    unfold notified. simpl. rewrite Ho'. apply lockable_Some.
    split; [done|]. simpl. rewrite !lookup_alter_eq, Hc. simpl.
    eexists. split; [done|]. simpl. lia.
  - rewrite (owned_pointer_raw_fresh _ _ _ _ Hb) in *.
    destruct Hacq as (_ & Hd & _). cbn [snd] in Hobj.
    split; [|split; [done | apply Hobj; eauto]].
    assert (secret_of T a s = Some w) as -> by by apply secret_of_Some.
    unfold notified. simpl. rewrite lookup_insert_eq. apply lockable_Some.
    split; [done|]. simpl. rewrite lookup_insert_eq.
    eexists. split; [done|]. simpl. lia.
Qed.

(** A handle made of the pointer through a type that is not polymorphic has
    a block of its own, which no secret names. *)
Lemma owned_pointer_raw_unnoticed
    (T : element_type) (a : address) (acq : bool) (s : heap) :
  is_polymorphic T = false → marks_ok s →
  let '(r, s1) := owned_pointer_raw T a acq s in
  is_Some (deref r s1) ∧ get_pointer r s1 = a ∧
  notified a s1 ≠ r ∧
  expired r (delete_object a s1) = false ∧
  get r (delete_object a s1) = returns a.
Proof.
  intros HT Hm.
  assert (Hs : secret_of T a s = None) by (unfold secret_of; by rewrite HT).
  assert (Hb : back_reference T a s = None)
    by (unfold back_reference; by rewrite Hs).
  rewrite (owned_pointer_raw_fresh _ _ _ _ Hb), Hs.
  set (s1 := mk_heap _ _ _ _ _).
  assert (Hc : blocks s1 !! next_block s =
               Some (mk_cell (mk_control_block a acq false) 1))
    by (unfold s1; simpl; by rewrite lookup_insert_eq).
  assert (Hn : notified a s1 ≠ Some (next_block s)).
  { intros (Ho & _)%notified_Some. unfold s1 in Ho. simpl in Ho.
    apply (secret_allocated _ Hm) in Ho. lia. }
  assert (Hc' : blocks (delete_object a s1) !! next_block s =
                Some (mk_cell (mk_control_block a acq false) 1))
    by (rewrite delete_object_blocks, decide_False by done; exact Hc).
  unfold get, throw_if_is_destroyed_and_has_virtual_dtor, expired,
    get_pointer.
  rewrite !deref_Some, Hc, Hc'. simpl. eauto.
Qed.

(** C3, as amended.  A resource of a type with a virtual destructor is made
    by [make_owned]; the client goes on as it likes, and then the resource,
    still alive, is deleted, as the unique_ptr that [unique_ptr()] handed out
    does.  The handles that notice are those on the control block the
    secret of the resource locks at that moment: a surviving handle is
    expired afterwards exactly when it is one of them or was expired before,
    and for them [get], [operator->] and [operator*] throw
    [ptr_is_already_deleted] from then on, also after anything the client
    does later.  These are the handle of [make_owned] and its copies while
    they live, and every handle made of the pointer through a polymorphic
    type, by [owned_pointer(std::unique_ptr<T>)] or from a link, whether it
    attached to that block or, all handles having ended, got a new one; for a
    well-typed client they are all the handles that point at the resource.  A
    handle made of the pointer through a type that is not polymorphic has a
    block of its own and does not notice: it stays unexpired and [get]
    returns the address.  [delete_event] runs for the resource in that
    deletion, had not run before and does not run again.  Where the weak_ptr
    of the secret does not lock, because every handle was destroyed and the
    block freed, [delete_event] changes no block and the resource is freed
    as usual. *)
Theorem C3_destruction_is_observed
    (T : element_type) (before after later : list operation) :
  has_virtual_destructor T = true →
  let s0 := run empty_heap before in
  let p := fst (make_owned T s0) in
  let a := next_object s0 in
  let s := run (snd (make_owned T s0)) after in
  is_Some (objects s !! a) →
  let s' := delete_object a s in
  get (fst (make_owned T s0)) (snd (make_owned T s0)) = returns a ∧
  a ≠ nullptr ∧
  (∀ q, is_Some (deref q s) →
     (expired q s' = true ↔ q = notified a s ∨ expired q s = true) ∧
     (q = notified a s →
      expired q s = false ∧
      expired q s' = true ∧
      get q s' = throws ptr_is_already_deleted ∧
      operator_arrow q s' = throws ptr_is_already_deleted ∧
      operator_star q s' = Some (throws ptr_is_already_deleted) ∧
      (is_Some (deref q (run s' later)) →
       expired q (run s' later) = true ∧
       get q (run s' later) = throws ptr_is_already_deleted ∧
       operator_arrow q (run s' later) = throws ptr_is_already_deleted ∧
       operator_star q (run s' later) =
         Some (throws ptr_is_already_deleted)))) ∧
  (is_Some (deref p s) → notified a s = p ∧ get_pointer p s = a) ∧
  (∀ T' acq, is_polymorphic T' = true →
     let '(r, s1) := owned_pointer_raw T' a acq s in
     notified a s1 = r ∧ is_Some (deref r s1) ∧ is_Some (objects s1 !! a) ∧
     expired r (delete_object a s1) = true ∧
     get r (delete_object a s1) = throws ptr_is_already_deleted) ∧
  (∀ T' acq, is_polymorphic T' = false →
     let '(r, s1) := owned_pointer_raw T' a acq s in
     is_Some (deref r s1) ∧ get_pointer r s1 = a ∧
     notified a s1 ≠ r ∧
     expired r (delete_object a s1) = false ∧
     get r (delete_object a s1) = returns a) ∧
  (well_typed_run empty_heap (before ++ call_make_owned T :: after) →
   ∀ q, get_pointer q s = a → q = notified a s) ∧
  (a ∉ delete_events s) ∧
  delete_events s' = a :: delete_events s ∧
  (a ∈ delete_events (run s' later)) ∧
  NoDup (delete_events (run s' later)) ∧
  (∀ s1 a1 w, objects s1 !! a1 = Some (destruction_notify_object w) →
     lockable w s1 = None →
     blocks (delete_object a1 s1) = blocks s1 ∧
     objects (delete_object a1 s1) = delete a1 (objects s1)) ∧
  (∀ s1 c, blocks s1 !! c = None → lockable (Some c) s1 = None).
Proof.
  intros HT s0 p a s Hlive s'.
  assert (Hok0 : heap_ok s0)
    by (unfold s0; apply heap_ok_run; apply heap_ok_empty).
  assert (Hm0 : marks_ok s0)
    by (unfold s0; apply marks_ok_run;
        [apply heap_ok_empty | apply marks_ok_empty]).
  set (s1 := snd (make_owned T s0)) in *.
  set (c := next_block s0).
  assert (Hp : p = Some c) by (unfold p; by rewrite make_owned_eq).
  assert (Hok1 : heap_ok s1) by apply (heap_ok_step s0 (call_make_owned T) Hok0).
  assert (Hm1 : marks_ok s1)
    by apply (marks_ok_step s0 (call_make_owned T) Hok0 Hm0).
  assert (Hok : heap_ok s) by (unfold s; by apply heap_ok_run).
  assert (Hm : marks_ok s) by (unfold s; by apply marks_ok_run).
  assert (Hok' : heap_ok s') by (unfold s'; by apply heap_ok_delete_object).
  assert (Hat : attached_to a c s)
    by (unfold s; apply attached_to_run; [done|];
        by apply attached_to_make_owned).
  assert (Ha0 : a ≠ nullptr)
    by (pose proof (next_object_nonnull _ Hok0); unfold a; lia).
  assert (Hc1 : blocks s1 !! c =
                Some (mk_cell (mk_control_block a false false) 1))
    by (unfold s1; rewrite make_owned_eq; simpl; by rewrite lookup_insert_eq).
  assert (Hcn : c < next_block s1)
    by (unfold s1; rewrite make_owned_eq; simpl; lia).
  destruct Hlive as [o Ho].
  destruct Hat as (_ & _ & Hsecret).
  destruct (Hsecret o Ho) as (w & -> & Hw).
  split; [apply get_make_owned|]. split; [done|].
  split.
  { intros q Hq.
    destruct (delete_object_observed a s q later Hok Hq) as [Hiff Hseen].
    split; [exact Hiff|]. intros Hn. split; [|by apply Hseen].
    destruct Hq as [cb Hcb].
    apply deref_Some_inv in Hcb as (d & cell & -> & Hd & <-).
    symmetry in Hn. pose proof Hn as (Ho' & _)%notified_Some.
    unfold expired. rewrite deref_Some, Hd. simpl.
    destruct (_deleted (tuple cell)) eqn:Hdel; [|done].
    destruct (deleted_means_freed _ Hm _ _ Hd Hdel) as [_ Hfree].
    rewrite (secret_points_home _ Hm _ _ _ Ho' Hd) in Hfree. congruence. }
  split.
  { intros (cb & Hcb). rewrite Hp in Hcb |- *.
    apply deref_Some_inv in Hcb as (c0 & cell & [= <-] & Hcell & <-).
    specialize (Hw (ex_intro _ cell Hcell)). subst w.
    destruct (blocks_allocated _ Hok _ _ Hcell) as [_ Hcount].
    split.
    - unfold notified. rewrite Ho. apply lockable_Some. eauto.
    - unfold get_pointer. rewrite deref_Some, Hcell. simpl.
      destruct (evolves_run after s1) as [_ Hev].
      destruct (Hev c cell Hcell Hcn) as (cell1 & Hcell1 & [Hptr _] & _).
      rewrite Hc1 in Hcell1. injection Hcell1 as <-. by rewrite <- Hptr. }
  split.
  { intros T' acq HT'.
    pose proof (owned_pointer_raw_notified T' a acq s w HT' Ha0 Ho) as Hr.
    destruct (owned_pointer_raw T' a acq s) as [r s2].
    destruct Hr as (Hn & Hd & Hobj).
    split; [done|]. split; [done|]. split; [done|].
    destruct r as [d|]; [|by destruct Hd].
    assert (He : expired (Some d) (delete_object a s2) = true)
      by by apply delete_object_notified.
    split; [done|]. by apply expired_throws. }
  split.
  { intros T' acq HT'. by apply owned_pointer_raw_unnoticed. }
  split.
  { intros Htyped q Hq.
    assert (Hr : reachable s).
    { assert (s = run empty_heap (before ++ call_make_owned T :: after))
        as -> by (unfold s, s1, s0; by rewrite run_app).
      apply reachable_run; [constructor | done]. }
    assert (is_Some (deref q s)) as (cb & Hcb).
    { apply get_pointer_nonnull_deref. by rewrite Hq. }
    unfold get_pointer in Hq. rewrite Hcb in Hq.
    apply deref_Some_inv in Hcb as (c' & cell' & -> & Hcell' & <-).
    destruct (blocks_allocated _ Hok _ _ Hcell') as [_ Hcount].
    pose proof Ho as Ho2. rewrite <- Hq in Ho2.
    pose proof (secret_names_block _ (reachable_tracked _ Hr) _ _ _
                  Hcell' Ho2) as ->.
    symmetry. unfold notified. rewrite Ho. apply lockable_Some. eauto. }
  assert (Hnot : a ∉ delete_events s).
  { intros Hin. destruct (events_of_freed _ Hok _ Hin). congruence. }
  split; [done|]. split.
  { unfold s'. rewrite delete_object_eq. simpl. unfold fired. by rewrite Ho. }
  split.
  { apply delete_events_run. unfold s'. rewrite delete_object_eq. simpl.
    unfold fired. rewrite Ho. by left. }
  split; [by apply events_once, heap_ok_run|].
  split.
  - intros s2 a1 w1 Ha1 Hw1.
    by destruct (delete_object_expired_secret _ _ _ Ha1 Hw1) as (? & ? & _).
  - intros s2 c2. apply lockable_freed.
Qed.

(** [auto p = make_owned<X>()], [u = p.unique_ptr()], the handle [p] ends,
    [owned_pointer<X> q{std::move(u)}], and then the unique_ptr that
    [q.unique_ptr()] hands out deletes the resource: [q], on the block the
    constructor allocated, is expired and [get] throws. *)
Lemma C3_destruction_is_observed_witness :
  let after := [call_unique_ptr (Some 0); call_destroy (Some 0);
                call_from_unique_ptr virtual_destructor 1;
                call_unique_ptr (Some 1)] in
  let s := run (snd (make_owned virtual_destructor empty_heap)) after in
  has_virtual_destructor virtual_destructor = true ∧
  is_Some (objects s !! 1) ∧
  blocks s !! 0 = None ∧
  blocks s !! 1 = Some (mk_cell (mk_control_block 1 true false) 1) ∧
  expired (Some 1) (delete_object 1 s) = true ∧
  get (Some 1) (delete_object 1 s) = throws ptr_is_already_deleted ∧
  delete_events (delete_object 1 s) = [1].
Proof.
  cbv zeta.
  assert (Hlive : is_Some (objects (run
            (snd (make_owned virtual_destructor empty_heap))
            [call_unique_ptr (Some 0); call_destroy (Some 0);
             call_from_unique_ptr virtual_destructor 1;
             call_unique_ptr (Some 1)]) !! 1))
    by (vm_compute; eauto).
  pose proof (C3_destruction_is_observed virtual_destructor []
    [call_unique_ptr (Some 0); call_destroy (Some 0);
     call_from_unique_ptr virtual_destructor 1; call_unique_ptr (Some 1)] []
    eq_refl Hlive) as (_ & _ & Hseen & _ & _ & _ & _ & _ & Hfired & _).
  assert (Hheld : is_Some (deref (Some 1) (run
            (snd (make_owned virtual_destructor empty_heap))
            [call_unique_ptr (Some 0); call_destroy (Some 0);
             call_from_unique_ptr virtual_destructor 1;
             call_unique_ptr (Some 1)])))
    by (vm_compute; eauto).
  destruct (Hseen (Some 1) Hheld) as (_ & Hq).
  destruct Hq as (_ & Hexpired & Hget & _); [vm_compute; reflexivity|].
  split; [reflexivity|]. split; [exact Hlive|].
  split; [vm_compute; reflexivity|]. split; [vm_compute; reflexivity|].
  split; [exact Hexpired|]. split; [exact Hget|]. exact Hfired.
Defined.

(** The claim as first written has every surviving handle expired.
    [auto p = make_owned<X>()] for [X] with a virtual destructor,
    [auto u = p.unique_ptr()] and [owned_pointer<B> r = link<B>(u)] for a
    base [B] of [X] that is not polymorphic: [r] has a block of its own, and
    after [u] has deleted the resource [p] is expired and [r] is not; [get]
    through [r] returns the address of the freed resource. *)
Lemma C3_counterexample :
  let s := run empty_heap
             [call_make_owned virtual_destructor; call_unique_ptr (Some 0);
              call_from_link non_polymorphic 1] in
  let s' := delete_object 1 s in
  objects s !! 1 = Some (destruction_notify_object (Some 0)) ∧
  get_pointer (Some 0) s = 1 ∧ get_pointer (Some 1) s = 1 ∧
  objects s' !! 1 = None ∧ delete_events s' = [1] ∧
  expired (Some 0) s' = true ∧
  is_Some (deref (Some 1) s') ∧
  expired (Some 1) s' = false ∧
  get (Some 1) s' = returns 1.
Proof. vm_compute. repeat split; eauto. Qed.
